(** * DNS wire-format decoding in [src/dnsEvents.ts]

    A shallow embedding of [decodeDnsName] and [parseDnsRrSet], followed by
    the properties of the decoder that the specification states and by
    further properties of the two functions on any buffer.

    Conventions of the embedding:
    - a [Uint8Array] is a [list byte]; an element read is the byte's value
      as a [Z] in [0, 256);
    - offsets and lengths are [nat] (the source only ever produces
      non-negative integral offsets);
    - a JavaScript number produced by [<<] and [|] is a [Z] holding the
      signed 32-bit result, the wrap-around written out in [toInt32];
    - a JavaScript string is a [string];
    - a call that may [throw] returns a [completion];
    - [console.warn] and [console.error] append a line to a console log
      that is threaded through the decode loop. *)

From Equations Require Import Equations.
From Equations.Prop Require Import Logic.
From Stdlib Require Import String Ascii ZArith Lia Bool Arith List.
From Stdlib Require Import Strings.Byte.
Import ListNotations.

Local Open Scope string_scope.
Local Open Scope nat_scope.

(** ** JavaScript 32-bit integer operators *)

Module Js.

(** [ToInt32]: reduce modulo 2^32 into the signed range. *)
Definition toInt32 (z : Z) : Z :=
  ((z + 2147483648) mod 4294967296 - 2147483648)%Z.

(** [a << n] *)
Definition shl (a n : Z) : Z :=
  toInt32 (Z.shiftl (toInt32 a) (n mod 32)).

(** [a | b] *)
Definition bor (a b : Z) : Z :=
  toInt32 (Z.lor (toInt32 a) (toInt32 b)).

End Js.

(** ** Byte buffers *)

(** [bytes[i]] as a number.  Every read in the source is guarded by a bounds
    test against [bytes.length]; the default is what [undefined] becomes
    under [<<] and [|]. *)
Definition byteAt (bytes : list byte) (i : nat) : Z :=
  Z.of_N (Byte.to_N (nth i bytes x00)).

(** [bytes.slice(start, end)] for [start <= end]; like the source's slice it
    is clipped to the buffer. *)
Definition slice (bytes : list byte) (start stop : nat) : list byte :=
  firstn (stop - start) (skipn start bytes).

(** [Buffer.from(b).toString("ascii")]: Node clears the top bit of each byte
    and makes it one character. *)
Definition asciiChar (b : byte) : ascii :=
  ascii_of_N (N.land (Byte.to_N b) 127).

Fixpoint toAscii (b : list byte) : string :=
  match b with
  | [] => EmptyString
  | c :: rest => String (asciiChar c) (toAscii rest)
  end.

(** [ethers.hexlify]: ["0x"] followed by two lower-case digits per byte. *)
Definition hexDigit (n : N) : ascii :=
  match n with
  | 0%N => "0" | 1%N => "1" | 2%N => "2" | 3%N => "3"
  | 4%N => "4" | 5%N => "5" | 6%N => "6" | 7%N => "7"
  | 8%N => "8" | 9%N => "9" | 10%N => "a" | 11%N => "b"
  | 12%N => "c" | 13%N => "d" | 14%N => "e" | _ => "f"
  end%char.

Fixpoint hexDigits (b : list byte) : string :=
  match b with
  | [] => EmptyString
  | c :: rest =>
      String (hexDigit (Byte.to_N c / 16))
        (String (hexDigit (Byte.to_N c mod 16)) (hexDigits rest))
  end.

Definition hexlify (b : list byte) : string := "0x" ++ hexDigits b.

(** ** Completions *)

(** The result of a call that either returns or throws [new Error(message)]. *)
Inductive completion (A : Type) : Type :=
| Normal (value : A)
| Throw (message : string).
Arguments Normal {A} value.
Arguments Throw {A} message.

(** ** [decodeDnsName] *)

Definition tooShort : string := "Buffer too short for DnsName label".

(** The [while] loop of [decodeDnsName], from the state
    [(name, currentOffset)].  Each pass that does not leave the loop reads
    the length byte, so the distance to the end of the buffer shrinks. *)
Equations? decodeDnsName_loop (bytes : list byte) (name : string)
    (currentOffset : nat) : completion (string * nat)
    by wf (length bytes - currentOffset) lt :=
  decodeDnsName_loop bytes name currentOffset
    with lt_dec currentOffset (length bytes) := {
    | right _ := Normal (name, currentOffset)
    | left _ with Z.eq_dec (byteAt bytes currentOffset) 0 := {
      | left _ := Normal (name, currentOffset + 1)
      | right _
          with le_dec (currentOffset + 1
                       + Z.to_nat (byteAt bytes currentOffset))
                      (length bytes) := {
        | right _ := Throw tooShort
        | left _ :=
            decodeDnsName_loop bytes
              (name
               ++ toAscii (slice bytes (currentOffset + 1)
                             (currentOffset + 1
                              + Z.to_nat (byteAt bytes currentOffset)))
               ++ ".")
              (currentOffset + 1 + Z.to_nat (byteAt bytes currentOffset)) } } }.
Proof. lia. Qed.

Definition decodeDnsName (bytes : list byte) (offset : nat)
  : completion (string * nat) :=
  decodeDnsName_loop bytes "" offset.

(** Where the loop stops: at or after the state it started from, and strictly
    after it when there was a byte to read. *)
Lemma decodeDnsName_loop_offset bytes name currentOffset name' newOffset :
  decodeDnsName_loop bytes name currentOffset = Normal (name', newOffset) ->
  currentOffset <= newOffset /\
  (currentOffset < length bytes -> currentOffset < newOffset).
Proof.
  funelim (decodeDnsName_loop bytes name currentOffset);
    try rewrite <- Heqcall; intros E; try discriminate.
  - inversion E; subst. lia.
  - inversion E; subst. lia.
  - match goal with
    | IH : forall _ _, _ -> _ /\ _ |- _ => destruct (IH _ _ E) as [Hle _]
    end.
    lia.
Qed.

(** ** [parseDnsRrSet] *)

(** The object [rr], which starts as [{}] and gets its properties one at a
    time. *)
Record ResourceRecord : Type := mkRr {
  rr_name : option string;
  rr_type : option Z;
  rr_class : option Z;
  rr_ttl : option Z;
  rr_rdata : option string
}.

Definition emptyObject : ResourceRecord := mkRr None None None None None.

Definition set_name (v : string) (rr : ResourceRecord) : ResourceRecord :=
  mkRr (Some v) (rr_type rr) (rr_class rr) (rr_ttl rr) (rr_rdata rr).
Definition set_type (v : Z) (rr : ResourceRecord) : ResourceRecord :=
  mkRr (rr_name rr) (Some v) (rr_class rr) (rr_ttl rr) (rr_rdata rr).
Definition set_class (v : Z) (rr : ResourceRecord) : ResourceRecord :=
  mkRr (rr_name rr) (rr_type rr) (Some v) (rr_ttl rr) (rr_rdata rr).
Definition set_ttl (v : Z) (rr : ResourceRecord) : ResourceRecord :=
  mkRr (rr_name rr) (rr_type rr) (rr_class rr) (Some v) (rr_rdata rr).
Definition set_rdata (v : string) (rr : ResourceRecord) : ResourceRecord :=
  mkRr (rr_name rr) (rr_type rr) (rr_class rr) (rr_ttl rr) (Some v).

(** What the function writes to the console. *)
Inductive consoleLine : Type :=
| Warn (rrName eventName : string)
| Error (message : string) (offset : nat).

(** How one pass through the body of the [while] loop ends.  Each carries
    the object [rr] as built so far and the value of [offset] at that
    point. *)
Inductive passEnd : Type :=
| Pushed (rr : ResourceRecord) (offset : nat)
    (** [records.push(rr)], the loop goes on *)
| Break (rr : ResourceRecord) (offset : nat)
    (** one of the [if (...) break] tests *)
| Caught (rr : ResourceRecord) (message : string) (offset : nat)
    (** the [catch] clause: [console.error], then [break] *).

(** A two-byte big-endian read, [(b[o] << 8) | b[o + 1]]. *)
Definition read16 (rawBytes : list byte) (offset : nat) : Z :=
  Js.bor (Js.shl (byteAt rawBytes offset) 8) (byteAt rawBytes (offset + 1)).

(** The four-byte read of the TTL,
    [(b[o] << 24) | (b[o + 1] << 16) | (b[o + 2] << 8) | b[o + 3]]. *)
Definition read32 (rawBytes : list byte) (offset : nat) : Z :=
  Js.bor
    (Js.bor
       (Js.bor (Js.shl (byteAt rawBytes offset) 24)
               (Js.shl (byteAt rawBytes (offset + 1)) 16))
       (Js.shl (byteAt rawBytes (offset + 2)) 8))
    (byteAt rawBytes (offset + 3)).

(** Step 6 and the end of the [try] block, once [rdLength] is known. *)
Definition readRdata (rawBytes : list byte) (rr : ResourceRecord)
    (offset : nat) (rdLength : Z) : passEnd :=
  if (Z.of_nat (length rawBytes) <? Z.of_nat offset + rdLength)%Z
  then Break rr offset
  else
    let rdataBytes :=
      slice rawBytes offset (Z.to_nat (Z.of_nat offset + rdLength)) in
    let offset := Z.to_nat (Z.of_nat offset + rdLength) in
    if andb (Z.eqb (match rr_type rr with Some t => t | None => 0%Z end) 2)
            (Z.eqb (match rr_class rr with Some c => c | None => 0%Z end) 1)
    then
      match decodeDnsName rdataBytes 0 with
      | Throw message => Caught rr message offset
      | Normal (name, _) => Pushed (set_rdata name rr) offset
      end
    else Pushed (set_rdata (hexlify rdataBytes) rr) offset.

(** Steps 2 to 5: the fixed-width fields, after the owner name. *)
Definition readFields (rawBytes : list byte) (rr : ResourceRecord)
    (offset : nat) : passEnd :=
  if length rawBytes <? offset + 2 then Break rr offset else
  let rr := set_type (read16 rawBytes offset) rr in
  let offset := offset + 2 in
  if length rawBytes <? offset + 2 then Break rr offset else
  let rr := set_class (read16 rawBytes offset) rr in
  let offset := offset + 2 in
  if length rawBytes <? offset + 4 then Break rr offset else
  let rr := set_ttl (read32 rawBytes offset) rr in
  let offset := offset + 4 in
  if length rawBytes <? offset + 2 then Break rr offset else
  let rdLength := read16 rawBytes offset in
  let offset := offset + 2 in
  readRdata rawBytes rr offset rdLength.

(** The body of the [while] loop: the lines it writes with [console.warn]
    and how the pass ends. *)
Definition parsePass (rawBytes : list byte) (ownerNameFromEvent : string)
    (offset : nat) : list consoleLine * passEnd :=
  let rr := emptyObject in
  match decodeDnsName rawBytes offset with
  | Throw message => ([], Caught rr message offset)
  | Normal (name, newOffset) =>
      let rr := set_name name rr in
      let offset := newOffset in
      (if String.eqb name ownerNameFromEvent
       then []
       else [Warn name ownerNameFromEvent],
       readFields rawBytes rr offset)
  end.

(** ** Arithmetic of the field reads *)

Lemma byteAt_range bytes i : (0 <= byteAt bytes i < 256)%Z.
Proof.
  unfold byteAt. pose proof (Byte.to_N_bounded (nth i bytes x00)). lia.
Qed.

Module JsFacts.
Import Js.
Local Open Scope Z_scope.

Lemma toInt32_range z : -2147483648 <= toInt32 z < 2147483648.
Proof.
  unfold toInt32.
  pose proof (Z.mod_pos_bound (z + 2147483648) 4294967296). lia.
Qed.

Lemma toInt32_small z : -2147483648 <= z < 2147483648 -> toInt32 z = z.
Proof.
  intros H. unfold toInt32. rewrite Z.mod_small; lia.
Qed.

Lemma toInt32_mod z : toInt32 z mod 4294967296 = z mod 4294967296.
Proof.
  unfold toInt32.
  rewrite <- (Zminus_mod_idemp_l ((z + 2147483648) mod 4294967296)).
  rewrite Z.mod_mod by lia. rewrite Zminus_mod_idemp_l.
  f_equal. lia.
Qed.

Lemma toInt32_congr x y :
  x mod 4294967296 = y mod 4294967296 -> toInt32 x = toInt32 y.
Proof.
  intros H. unfold toInt32.
  rewrite <- (Zplus_mod_idemp_l x), <- (Zplus_mod_idemp_l y), H.
  reflexivity.
Qed.

Lemma mod32_land z : z mod 4294967296 = Z.land z (Z.ones 32).
Proof. rewrite Z.land_ones by lia. reflexivity. Qed.

(** [|] only looks at the low 32 bits of its operands. *)
Lemma bor_lor a b : bor a b = toInt32 (Z.lor a b).
Proof.
  unfold bor. apply toInt32_congr.
  rewrite !mod32_land, !Z.land_lor_distr_l, <- !mod32_land, !toInt32_mod.
  reflexivity.
Qed.

Lemma lor_toInt32_l a b :
  toInt32 (Z.lor (toInt32 a) b) = toInt32 (Z.lor a b).
Proof.
  apply toInt32_congr.
  rewrite !mod32_land, !Z.land_lor_distr_l, <- !mod32_land, toInt32_mod.
  reflexivity.
Qed.

Lemma lor_toInt32_r a b :
  toInt32 (Z.lor a (toInt32 b)) = toInt32 (Z.lor a b).
Proof.
  rewrite (Z.lor_comm a), lor_toInt32_l, Z.lor_comm. reflexivity.
Qed.

Lemma shl_mul a n : 0 <= n < 32 -> shl a n = toInt32 (a * 2 ^ n).
Proof.
  intros Hn. unfold shl. rewrite (Z.mod_small n 32) by lia.
  rewrite Z.shiftl_mul_pow2 by lia.
  apply toInt32_congr.
  rewrite <- Zmult_mod_idemp_l, toInt32_mod, Zmult_mod_idemp_l.
  reflexivity.
Qed.

(** Or-ing a value below [2^n] under a multiple of [2^n] adds it. *)
Lemma lor_shifted hi lo n :
  0 <= n -> 0 <= lo < 2 ^ n -> Z.lor (hi * 2 ^ n) lo = hi * 2 ^ n + lo.
Proof.
  intros Hn Hlo.
  rewrite <- Z.shiftl_mul_pow2 by lia.
  assert (Hland : Z.land (Z.shiftl hi n) lo = 0).
  { apply Z.bits_inj'. intros k Hk.
    rewrite Z.land_spec, Z.bits_0.
    destruct (Z.lt_ge_cases k n) as [Hlt | Hge].
    - rewrite Z.shiftl_spec_low by lia. reflexivity.
    - assert (Z.testbit lo k = false) as ->.
      { destruct (Z.eq_dec lo 0) as [-> | Hnz].
        - apply Z.bits_0.
        - apply Z.bits_above_log2; [lia |].
          apply Z.log2_lt_pow2; [lia |].
          apply Z.lt_le_trans with (2 ^ n); [lia |].
          apply Z.pow_le_mono_r; lia. }
      apply andb_false_r. }
  rewrite <- Z.lxor_lor by exact Hland.
  symmetry. apply Z.add_nocarry_lxor. exact Hland.
Qed.

Lemma lor_const hi lo n m :
  m = 2 ^ n -> 0 <= n -> 0 <= lo < m -> Z.lor (hi * m) lo = hi * m + lo.
Proof. intros ->. apply lor_shifted. Qed.

End JsFacts.

(** A two-byte read is the unsigned big-endian value of its bytes. *)
Lemma read16_value rawBytes offset :
  read16 rawBytes offset
  = (byteAt rawBytes offset * 256 + byteAt rawBytes (offset + 1))%Z.
Proof.
  unfold read16.
  pose proof (byteAt_range rawBytes offset).
  pose proof (byteAt_range rawBytes (offset + 1)).
  rewrite JsFacts.bor_lor, JsFacts.shl_mul by lia.
  change (2 ^ 8)%Z with 256%Z.
  rewrite (JsFacts.toInt32_small (byteAt rawBytes offset * 256)) by lia.
  rewrite (JsFacts.lor_const _ _ 8 256) by (try reflexivity; lia).
  apply JsFacts.toInt32_small. lia.
Qed.

Lemma read16_range rawBytes offset :
  (0 <= read16 rawBytes offset < 65536)%Z.
Proof.
  rewrite read16_value.
  pose proof (byteAt_range rawBytes offset).
  pose proof (byteAt_range rawBytes (offset + 1)).
  lia.
Qed.

(** The four-byte read is the unsigned big-endian value of its bytes taken
    through [ToInt32]. *)
Lemma read32_value rawBytes offset :
  read32 rawBytes offset
  = Js.toInt32
      (byteAt rawBytes offset * 16777216
       + byteAt rawBytes (offset + 1) * 65536
       + byteAt rawBytes (offset + 2) * 256
       + byteAt rawBytes (offset + 3))%Z.
Proof.
  unfold read32.
  pose proof (byteAt_range rawBytes offset).
  pose proof (byteAt_range rawBytes (offset + 1)).
  pose proof (byteAt_range rawBytes (offset + 2)).
  pose proof (byteAt_range rawBytes (offset + 3)).
  rewrite !JsFacts.bor_lor, !JsFacts.shl_mul by lia.
  set (b0 := byteAt rawBytes offset) in *.
  set (b1 := byteAt rawBytes (offset + 1)) in *.
  set (b2 := byteAt rawBytes (offset + 2)) in *.
  set (b3 := byteAt rawBytes (offset + 3)) in *.
  change (2 ^ 24)%Z with 16777216%Z. change (2 ^ 16)%Z with 65536%Z.
  change (2 ^ 8)%Z with 256%Z.
  rewrite (JsFacts.toInt32_small (b1 * 65536)) by lia.
  rewrite (JsFacts.toInt32_small (b2 * 256)) by lia.
  rewrite (JsFacts.lor_toInt32_l (b0 * 16777216) (b1 * 65536)).
  rewrite (JsFacts.lor_const b0 (b1 * 65536) 24 16777216)
    by (try reflexivity; lia).
  replace (b0 * 16777216 + b1 * 65536)%Z
    with ((b0 * 256 + b1) * 65536)%Z by lia.
  rewrite (JsFacts.lor_toInt32_l ((b0 * 256 + b1) * 65536) (b2 * 256)).
  rewrite (JsFacts.lor_const (b0 * 256 + b1) (b2 * 256) 16 65536)
    by (try reflexivity; lia).
  replace ((b0 * 256 + b1) * 65536 + b2 * 256)%Z
    with ((b0 * 65536 + b1 * 256 + b2) * 256)%Z by lia.
  rewrite (JsFacts.lor_toInt32_l ((b0 * 65536 + b1 * 256 + b2) * 256) b3).
  rewrite (JsFacts.lor_const (b0 * 65536 + b1 * 256 + b2) b3 8 256)
    by (try reflexivity; lia).
  reflexivity.
Qed.

(** ** The decode loop *)

(** The offset a pass ends with. *)
Definition endOffset (e : passEnd) : nat :=
  match e with
  | Pushed _ offset | Break _ offset | Caught _ _ offset => offset
  end.

Lemma readRdata_offset rawBytes rr offset rdLength :
  (0 <= rdLength)%Z ->
  offset <= endOffset (readRdata rawBytes rr offset rdLength).
Proof.
  intros Hrd. unfold readRdata.
  destruct (_ <? _)%Z; [simpl; lia |].
  destruct (andb _ _); [destruct (decodeDnsName _ 0) as [[? ?] | ?] |];
    simpl; lia.
Qed.

Lemma readFields_offset rawBytes rr offset :
  offset <= endOffset (readFields rawBytes rr offset).
Proof.
  unfold readFields.
  repeat (destruct (length rawBytes <? _); [simpl; lia |]).
  pose proof (readRdata_offset rawBytes
                (set_ttl (read32 rawBytes (offset + 2 + 2))
                   (set_class (read16 rawBytes (offset + 2))
                      (set_type (read16 rawBytes offset) rr)))
                (offset + 2 + 2 + 4 + 2)
                (read16 rawBytes (offset + 2 + 2 + 4))
                (proj1 (read16_range _ _))).
  lia.
Qed.

(** A pass that starts inside the buffer and pushes a record has moved the
    offset forward. *)
Lemma parsePass_pushed_offset rawBytes ownerNameFromEvent offset w rr offset' :
  offset < length rawBytes ->
  parsePass rawBytes ownerNameFromEvent offset = (w, Pushed rr offset') ->
  offset < offset'.
Proof.
  intros Hin. unfold parsePass, decodeDnsName.
  destruct (decodeDnsName_loop rawBytes "" offset) as [[name newOffset] | m]
    eqn:E; [| discriminate].
  apply decodeDnsName_loop_offset in E. destruct E as [_ Hlt].
  intros H. inversion H as [[Hw Hend]].
  pose proof (readFields_offset rawBytes (set_name name emptyObject)
                newOffset) as Hle.
  rewrite Hend in Hle. simpl in Hle. specialize (Hlt Hin). lia.
Qed.

(** The variables of [parseDnsRrSet] that the loop changes, with the
    console. *)
Record loopState : Type := mkState {
  records : list ResourceRecord;
  console : list consoleLine;
  cursor : nat
}.

(** The [while (offset < rawBytes.length)] loop, from a given state to the
    state in which it is left. *)
Equations? parseDnsRrSet_loop (rawBytes : list byte)
    (ownerNameFromEvent : string) (st : loopState) : loopState
    by wf (length rawBytes - cursor st) lt :=
  parseDnsRrSet_loop rawBytes ownerNameFromEvent st
    with lt_dec (cursor st) (length rawBytes) := {
    | right _ := st
    | left _
        with inspect (parsePass rawBytes ownerNameFromEvent (cursor st)) := {
      | exist _ (w, Pushed rr offset) _ :=
          parseDnsRrSet_loop rawBytes ownerNameFromEvent
            (mkState (records st ++ [rr]) (console st ++ w) offset)
      | exist _ (w, Break rr offset) _ :=
          mkState (records st) (console st ++ w) offset
      | exist _ (w, Caught rr message offset) _ :=
          mkState (records st)
            (console st ++ w ++ [Error message offset]) offset } }.
Proof.
  simpl.
  match goal with
  | H : parsePass _ _ _ = _ |- _ =>
      apply parsePass_pushed_offset in H; [lia | assumption]
  end.
Qed.

(** The function up to its [return]: the hint name is decoded first, outside
    the [try], so a throw there leaves the function. *)
Definition parseDnsRrSet_run (rawBytes eventOwnerName : list byte)
  : completion loopState :=
  match decodeDnsName eventOwnerName 0 with
  | Throw message => Throw message
  | Normal (ownerNameFromEvent, _) =>
      Normal (parseDnsRrSet_loop rawBytes ownerNameFromEvent
                (mkState [] [] 0))
  end.

(** [parseDnsRrSet]: what the caller gets, the array [records]. *)
Definition parseDnsRrSet (rawBytes eventOwnerName : list byte)
  : completion (list ResourceRecord) :=
  match parseDnsRrSet_run rawBytes eventOwnerName with
  | Throw message => Throw message
  | Normal st => Normal (records st)
  end.

(** ** Vocabulary of the properties *)

(** A name as [decodeDnsName] renders it: every label followed by a dot. *)
Fixpoint joinLabels (labels : list (list byte)) : string :=
  match labels with
  | [] => ""
  | l :: rest => toAscii l ++ "." ++ joinLabels rest
  end.

(** [labelPath bytes offset labels cur]: started at [offset], the name loop
    is at its head with [currentOffset = cur] after reading the length bytes
    and bodies of [labels], none of which made it stop. *)
Inductive labelPath (bytes : list byte) : nat -> list (list byte) -> nat -> Prop :=
| path_here offset : labelPath bytes offset [] offset
| path_label offset labels cur :
    offset < length bytes ->
    byteAt bytes offset <> 0%Z ->
    offset + 1 + Z.to_nat (byteAt bytes offset) <= length bytes ->
    labelPath bytes (offset + 1 + Z.to_nat (byteAt bytes offset)) labels cur ->
    labelPath bytes offset
      (slice bytes (offset + 1)
         (offset + 1 + Z.to_nat (byteAt bytes offset)) :: labels)
      cur.

(** One turn of the decode loop that goes on to the next: from [st], inside
    the buffer, the pass pushes a record. *)
Definition loopStep (rawBytes : list byte) (ownerNameFromEvent : string)
    (st st' : loopState) : Prop :=
  cursor st < length rawBytes /\
  exists w rr offset,
    parsePass rawBytes ownerNameFromEvent (cursor st) = (w, Pushed rr offset)
    /\ st' = mkState (records st ++ [rr]) (console st ++ w) offset.

(** The states at the head of the loop in the run that starts from [st]. *)
Inductive loopReaches (rawBytes : list byte) (ownerNameFromEvent : string)
  : loopState -> loopState -> Prop :=
| reaches_here st : loopReaches rawBytes ownerNameFromEvent st st
| reaches_next st st' st'' :
    loopStep rawBytes ownerNameFromEvent st st' ->
    loopReaches rawBytes ownerNameFromEvent st' st'' ->
    loopReaches rawBytes ownerNameFromEvent st st''.

Definition initial : loopState := mkState [] [] 0.


(** After an owner name that ends at [newOffset], one of the reads of steps
    2 to 6 does not fit in the buffer: the type, the class, the TTL, the
    RDATA length, or the RDATA of the declared length. *)
Definition fieldTruncated (rawBytes : list byte) (newOffset : nat) : Prop :=
  length rawBytes < newOffset + 2 \/
  length rawBytes < newOffset + 2 + 2 \/
  length rawBytes < newOffset + 2 + 2 + 4 \/
  length rawBytes < newOffset + 2 + 2 + 4 + 2 \/
  (Z.of_nat (length rawBytes)
   < Z.of_nat (newOffset + 2 + 2 + 4 + 2)
     + read16 rawBytes (newOffset + 2 + 2 + 4))%Z.

(** A pass that does not push a record. *)
Definition failed (e : passEnd) : Prop :=
  match e with
  | Pushed _ _ => False
  | Break _ _ | Caught _ _ _ => True
  end.

(** What such a pass writes with [console.error]. *)
Definition report (e : passEnd) : list consoleLine :=
  match e with
  | Caught _ message offset => [Error message offset]
  | Pushed _ _ | Break _ _ => []
  end.

(** *** The loop of the [dns-packet] test script

    [dnsPacket.answer.decode] and [dnsPacket.answer.encodingLength] belong to
    the library; the loop is modelled over any two such functions.  A turn
    goes on to the next when [decode] returns a record and its encoding
    length is not zero. *)
Section TestScript.

Variable Answer : Type.
Variable decode : list byte -> nat -> completion (option Answer).
Variable encodingLength : Answer -> nat.

Record testState : Type := mkTest {
  decodedRecords : list Answer;
  testOffset : nat
}.

Definition testStep (recordsBuffer : list byte) (st st' : testState)
  : Prop :=
  testOffset st < length recordsBuffer /\
  exists rr,
    decode recordsBuffer (testOffset st) = Normal (Some rr) /\
    encodingLength rr <> 0 /\
    st' = mkTest (decodedRecords st ++ [rr])
            (testOffset st + encodingLength rr).

End TestScript.

(** The last character of a string. *)
Fixpoint lastChar (s : string) : option ascii :=
  match s with
  | EmptyString => None
  | String c EmptyString => Some c
  | String _ rest => lastChar rest
  end.

(** *** Buffers used below *)

(** Scenario A: one NS record of [moe.box.]. *)
Definition scenarioA : list byte :=
  [x03; x6d; x6f; x65; x03; x62; x6f; x78; x00;
   x00; x02; x00; x01; x00; x00; x38; x40; x00; x19;
   x05; x64; x65; x72; x65; x6b; x02; x6e; x73;
   x0a; x63; x6c; x6f; x75; x64; x66; x6c; x61; x72; x65;
   x03; x63; x6f; x6d; x00].

Definition recordA : ResourceRecord :=
  mkRr (Some "moe.box.") (Some 2%Z) (Some 1%Z) (Some 14400%Z)
       (Some "derek.ns.cloudflare.com.").

(** The owner name [moe.box.] on the wire. *)
Definition moeBox : list byte :=
  [x03; x6d; x6f; x65; x03; x62; x6f; x78; x00].

(** A length byte [0xc0], the first byte of a compression pointer, with 192
    bytes and a null label behind it. *)
Definition pointerName : list byte := xc0 :: repeat x61 192 ++ [x00].

(** A label of 64 bytes. *)
Definition longLabel : list byte := x40 :: repeat x61 64 ++ [x00].

(** A label whose terminating null label is missing. *)
Definition unterminated : list byte := [x03; x6d; x6f; x65].

(** A label that declares five bytes and has none. *)
Definition cutLabel : list byte := [x05].

(** Scenario A followed by an owner name and a type cut after one byte. *)
Definition cutAfterA : list byte := scenarioA ++ moeBox ++ [x00].

(** A record of [moe.box.] of type NS in class IN whose RDATA, one byte
    long, declares a label of five bytes. *)
Definition cutRdata : list byte :=
  moeBox ++ [x00; x02; x00; x01; x00; x00; x38; x40; x00; x01; x05].

(** An A record of [moe.box.], class 1, RDATA [ac 42 00 46], whose TTL bytes
    are [80 00 00 00]. *)
Definition highTtl : list byte :=
  moeBox ++ [x00; x01; x00; x01; x80; x00; x00; x00; x00; x04;
             xac; x42; x00; x46].

(** *** The wire format and longer buffers *)

(** The length byte of a label of [n] bytes. *)
Definition lengthByte (n : nat) : byte :=
  match Byte.of_N (N.of_nat n) with
  | Some b => b
  | None => x00
  end.

(** The uncompressed wire form of a name: every label behind its length
    byte, then the null label. *)
Fixpoint wireName (labels : list (list byte)) : list byte :=
  match labels with
  | [] => [x00]
  | l :: rest => lengthByte (length l) :: l ++ wireName rest
  end.

(** A label that one length byte can declare. *)
Definition wireLabel (l : list byte) : Prop := 1 <= length l <= 255.

(** The result of a decode in a buffer that has [shift] more bytes in
    front. *)
Definition shifted (shift : nat) (r : completion (string * nat))
  : completion (string * nat) :=
  match r with
  | Normal (name, newOffset) => Normal (name, shift + newOffset)
  | Throw message => Throw message
  end.

(** The characters of a string. *)
Fixpoint chars (s : string) : list ascii :=
  match s with
  | EmptyString => []
  | String c rest => c :: chars rest
  end.

(** The end of a pass in a buffer that has [shift] more bytes in front. *)
Definition shiftedPass (shift : nat) (e : passEnd) : passEnd :=
  match e with
  | Pushed rr offset => Pushed rr (shift + offset)
  | Break rr offset => Break rr (shift + offset)
  | Caught rr message offset => Caught rr message (shift + offset)
  end.

(** Console lines none of which comes from [console.error]. *)
Definition noError (lines : list consoleLine) : Prop :=
  forall message offset, ~ In (Error message offset) lines.

(** The second record of [recordHexData] in the [dns-packet] test script: an
    NS record of [moe.box.] for [daphne.ns.cloudflare.com.].  The first is
    the record of scenario A. *)
Definition daphneRecord : list byte :=
  [x03; x6d; x6f; x65; x03; x62; x6f; x78; x00;
   x00; x02; x00; x01; x00; x00; x38; x40; x00; x1a;
   x06; x64; x61; x70; x68; x6e; x65; x02; x6e; x73;
   x0a; x63; x6c; x6f; x75; x64; x66; x6c; x61; x72; x65;
   x03; x63; x6f; x6d; x00].

(** The record object of [daphneRecord]. *)
Definition recordB : ResourceRecord :=
  mkRr (Some "moe.box.") (Some 2%Z) (Some 1%Z) (Some 14400%Z)
       (Some "daphne.ns.cloudflare.com.").

(** A resource record as it is laid out in the buffer.  [w_fields] are the
    8 bytes of the type, the class and the TTL; the two bytes of the RDATA
    length are those of the length of [w_rdata].  [w_target] is the name
    that the RDATA of an NS record holds. *)
Record wireRecord : Type := mkWire {
  w_owner : list (list byte);
  w_fields : list byte;
  w_rdata : list byte;
  w_target : list (list byte)
}.

(** The two bytes of a 16-bit length, high byte first. *)
Definition lengthBytes (n : nat) : list byte :=
  [lengthByte (n / 256); lengthByte (n mod 256)].

(** The bytes of a record: owner name, type, class, TTL, RDATA length,
    RDATA. *)
Definition wireOf (r : wireRecord) : list byte :=
  wireName (w_owner r) ++ w_fields r ++ lengthBytes (length (w_rdata r))
  ++ w_rdata r.

(** The unsigned number that two bytes hold, high byte first. *)
Definition bigEndian16 (bytes : list byte) (i : nat) : Z :=
  (byteAt bytes i * 256 + byteAt bytes (i + 1))%Z.

(** The number that four bytes hold, high byte first, brought into the
    signed 32-bit range. *)
Definition bigEndian32 (bytes : list byte) (i : nat) : Z :=
  Js.toInt32
    (byteAt bytes i * 16777216 + byteAt bytes (i + 1) * 65536
     + byteAt bytes (i + 2) * 256 + byteAt bytes (i + 3))%Z.

(** Whether the fields say NS (type 2) in class IN (class 1). *)
Definition isNs (fields : list byte) : bool :=
  andb (bigEndian16 fields 0 =? 2)%Z (bigEndian16 fields 2 =? 1)%Z.

(** A record that fills its layout: labels that a length byte can declare,
    8 bytes of fields, an RDATA whose length fits in 16 bits and, for an NS
    record, is the wire form of a name. *)
Definition wellFormed (r : wireRecord) : Prop :=
  Forall wireLabel (w_owner r) /\
  length (w_fields r) = 8 /\
  length (w_rdata r) < 256 * 256 /\
  (isNs (w_fields r) = true ->
   Forall wireLabel (w_target r) /\ w_rdata r = wireName (w_target r)).

(** The record object expected for it. *)
Definition decodedOf (r : wireRecord) : ResourceRecord :=
  mkRr (Some (joinLabels (w_owner r)))
       (Some (bigEndian16 (w_fields r) 0))
       (Some (bigEndian16 (w_fields r) 2))
       (Some (bigEndian32 (w_fields r) 4))
       (Some (if isNs (w_fields r)
              then joinLabels (w_target r)
              else hexlify (w_rdata r))).

(** The buffer of an RRSet: its records one behind the other. *)
Fixpoint wireRrSet (rs : list wireRecord) : list byte :=
  match rs with
  | [] => []
  | r :: rest => wireOf r ++ wireRrSet rest
  end.

(** ** The loops, unfolded once *)

(** Settles the tests of a goal from the hypotheses at hand. *)
Ltac decide_tests :=
  repeat match goal with
    | |- context [?a <? ?b] =>
        destruct (Nat.ltb_spec a b); try lia
    | |- context [(?a =? ?b)%Z] =>
        destruct (Z.eqb_spec a b); try lia; try contradiction
    | |- context [(?a <? ?b)%Z] =>
        destruct (Z.ltb_spec a b); try lia
    end.

Lemma decodeDnsName_loop_eq bytes name currentOffset :
  decodeDnsName_loop bytes name currentOffset =
  if currentOffset <? length bytes then
    if (byteAt bytes currentOffset =? 0)%Z then
      Normal (name, currentOffset + 1)
    else if length bytes
            <? currentOffset + 1 + Z.to_nat (byteAt bytes currentOffset)
    then Throw tooShort
    else
      decodeDnsName_loop bytes
        (name
         ++ toAscii (slice bytes (currentOffset + 1)
                       (currentOffset + 1
                        + Z.to_nat (byteAt bytes currentOffset)))
         ++ ".")
        (currentOffset + 1 + Z.to_nat (byteAt bytes currentOffset))
  else Normal (name, currentOffset).
Proof.
  funelim (decodeDnsName_loop bytes name currentOffset);
    try clear Heqcall; decide_tests; reflexivity.
Qed.

(** The same for the decode loop of [parseDnsRrSet]. *)
Lemma parseDnsRrSet_loop_eq rawBytes ownerNameFromEvent st :
  parseDnsRrSet_loop rawBytes ownerNameFromEvent st =
  if cursor st <? length rawBytes then
    match parsePass rawBytes ownerNameFromEvent (cursor st) with
    | (w, Pushed rr offset) =>
        parseDnsRrSet_loop rawBytes ownerNameFromEvent
          (mkState (records st ++ [rr]) (console st ++ w) offset)
    | (w, Break rr offset) =>
        mkState (records st) (console st ++ w) offset
    | (w, Caught rr message offset) =>
        mkState (records st) (console st ++ w ++ [Error message offset])
          offset
    end
  else st.
Proof.
  funelim (parseDnsRrSet_loop rawBytes ownerNameFromEvent st);
    try clear Heqcall; decide_tests;
    try match goal with
        | H : parsePass _ _ _ = _ |- _ => rewrite H
        end;
    reflexivity.
Qed.

(** ** Strings and slices *)

Lemma string_app_assoc (a b c : string) : (a ++ b) ++ c = a ++ (b ++ c).
Proof. induction a as [| ch a IH]; simpl; [| rewrite IH]; reflexivity. Qed.

Lemma string_app_empty_r (a : string) : a ++ "" = a.
Proof. induction a as [| ch a IH]; simpl; [| rewrite IH]; reflexivity. Qed.

Lemma lastChar_app_char (a : string) (c : ascii) :
  lastChar (a ++ String c "") = Some c.
Proof.
  induction a as [| ch a IH]; simpl; [reflexivity |].
  rewrite IH. destruct (a ++ String c ""); [discriminate | reflexivity].
Qed.

Lemma slice_length bytes start stop :
  start <= stop -> stop <= length bytes ->
  length (slice bytes start stop) = stop - start.
Proof.
  intros H1 H2. unfold slice. rewrite length_firstn, length_skipn. lia.
Qed.

Lemma slice_middle (pre body post : list byte) :
  slice (pre ++ body ++ post) (length pre) (length pre + length body) = body.
Proof.
  unfold slice.
  rewrite skipn_app, skipn_all, Nat.sub_diag. simpl.
  replace (length pre + length body - length pre) with (length body) by lia.
  rewrite firstn_app, firstn_all, Nat.sub_diag. simpl.
  apply app_nil_r.
Qed.

Lemma byteAt_middle (pre : list byte) (b : byte) (post : list byte) :
  byteAt (pre ++ b :: post) (length pre) = Z.of_N (Byte.to_N b).
Proof. unfold byteAt. rewrite nth_middle. reflexivity. Qed.

Lemma joinLabels_app ls l :
  joinLabels (ls ++ [l]) = joinLabels ls ++ toAscii l ++ ".".
Proof.
  induction ls as [| x ls IH]; simpl.
  - reflexivity.
  - rewrite IH, !string_app_assoc. reflexivity.
Qed.

(** ** Paths of the name loop *)

(** A state on the path gives the same result as the start. *)
Lemma labelPath_loop bytes offset labels cur :
  labelPath bytes offset labels cur ->
  forall name,
    decodeDnsName_loop bytes name offset
    = decodeDnsName_loop bytes (name ++ joinLabels labels) cur.
Proof.
  induction 1 as [offset | offset labels cur Hin Hnz Hfit Hpath IH];
    intros name; simpl.
  - rewrite string_app_empty_r. reflexivity.
  - rewrite decodeDnsName_loop_eq. decide_tests.
    rewrite IH, !string_app_assoc. reflexivity.
Qed.

Lemma labelPath_snoc bytes offset labels cur :
  labelPath bytes offset labels cur ->
  cur < length bytes ->
  byteAt bytes cur <> 0%Z ->
  cur + 1 + Z.to_nat (byteAt bytes cur) <= length bytes ->
  labelPath bytes offset
    (labels ++ [slice bytes (cur + 1)
                  (cur + 1 + Z.to_nat (byteAt bytes cur))])
    (cur + 1 + Z.to_nat (byteAt bytes cur)).
Proof.
  induction 1 as [offset | offset labels cur Hin Hnz Hfit Hpath IH];
    intros Hc Hb Hf; simpl.
  - apply path_label; try assumption. apply path_here.
  - apply path_label; try assumption. apply IH; assumption.
Qed.

(** How a successful decode went: along a path of labels, each of 1 to 255
    bytes, up to a null label or the end of the buffer. *)
Lemma decodeDnsName_loop_labels bytes name currentOffset name' newOffset :
  decodeDnsName_loop bytes name currentOffset = Normal (name', newOffset) ->
  exists labels cur,
    labelPath bytes currentOffset labels cur /\
    name' = name ++ joinLabels labels /\
    Forall (fun l => 1 <= length l <= 255) labels /\
    (length bytes <= cur /\ newOffset = cur \/
     cur < length bytes /\ byteAt bytes cur = 0%Z /\ newOffset = cur + 1).
Proof.
  funelim (decodeDnsName_loop bytes name currentOffset);
    try rewrite <- Heqcall; intros E; try discriminate.
  - injection E as <- <-. exists [], currentOffset.
    rewrite string_app_empty_r.
    repeat split; [apply path_here | constructor | left; lia].
  - injection E as <- <-. exists [], currentOffset.
    rewrite string_app_empty_r.
    repeat split; [apply path_here | constructor | right; auto].
  - match goal with
    | IH : forall _ _, _ -> exists _ _, _ |- _ =>
        destruct (IH _ _ E) as (labels & cur & Hp & Hn & Hall & Hend)
    end.
    exists (slice bytes (currentOffset + 1)
              (currentOffset + 1 + Z.to_nat (byteAt bytes currentOffset))
            :: labels), cur.
    repeat split.
    + apply path_label; assumption.
    + rewrite Hn, !string_app_assoc. reflexivity.
    + constructor; [| exact Hall].
      rewrite slice_length by lia.
      pose proof (byteAt_range bytes currentOffset). lia.
    + exact Hend.
Qed.

(** A decoded name is empty or ends with a dot. *)
Lemma decodeDnsName_lastChar bytes offset name newOffset :
  decodeDnsName bytes offset = Normal (name, newOffset) ->
  name = "" \/ lastChar name = Some "."%char.
Proof.
  intros E. apply decodeDnsName_loop_labels in E.
  destruct E as (labels & cur & _ & -> & _ & _). simpl.
  destruct labels as [| l labels] using rev_ind; [left; reflexivity |].
  right. rewrite joinLabels_app, <- string_app_assoc.
  apply lastChar_app_char.
Qed.

(** ** The Name Decoder *)

(** C1, as the specification states it, fails: the length byte [0xc0] at the
    head of [pointerName] has its top two bits set, and [decodeDnsName]
    returns a name made of the 192 bytes that follow it. *)
Lemma pointer_byte_decodes :
  labelPath pointerName 0 [] 0 /\
  0 < length pointerName /\
  (192 <= byteAt pointerName 0)%Z /\
  decodeDnsName pointerName 0
  = Normal (toAscii (repeat x61 192) ++ ".", 194).
Proof.
  split; [apply path_here |].
  split; [vm_compute; lia |].
  split; [vm_compute; discriminate |].
  vm_compute. reflexivity.
Qed.

(** C1, amended: a length byte of 192 or more met while decoding a name is
    read like any other length byte.  When that many bytes follow it in the
    buffer they are taken as one more label and decoding goes on after them;
    otherwise decoding throws the one error there is, "Buffer too short for
    DnsName label". *)
Theorem pointer_byte_is_label_length bytes offset labels cur :
  labelPath bytes offset labels cur ->
  cur < length bytes ->
  (192 <= byteAt bytes cur)%Z ->
  (cur + 1 + Z.to_nat (byteAt bytes cur) <= length bytes ->
   labelPath bytes offset
     (labels ++ [slice bytes (cur + 1)
                   (cur + 1 + Z.to_nat (byteAt bytes cur))])
     (cur + 1 + Z.to_nat (byteAt bytes cur)) /\
   decodeDnsName bytes offset
   = decodeDnsName_loop bytes
       (joinLabels
          (labels ++ [slice bytes (cur + 1)
                        (cur + 1 + Z.to_nat (byteAt bytes cur))]))
       (cur + 1 + Z.to_nat (byteAt bytes cur))) /\
  (length bytes < cur + 1 + Z.to_nat (byteAt bytes cur) ->
   decodeDnsName bytes offset = Throw tooShort).
Proof.
  intros Hpath Hin Hptr. split.
  - intros Hfit.
    assert (Hnext := labelPath_snoc _ _ _ _ Hpath Hin
                       ltac:(lia) Hfit).
    split; [exact Hnext |].
    unfold decodeDnsName. rewrite (labelPath_loop _ _ _ _ Hnext).
    reflexivity.
  - intros Hcut. unfold decodeDnsName.
    rewrite (labelPath_loop _ _ _ _ Hpath), decodeDnsName_loop_eq.
    decide_tests. reflexivity.
Qed.

Lemma pointer_byte_is_label_length_witness :
  decodeDnsName pointerName 0
  = decodeDnsName_loop pointerName
      (joinLabels ([] ++ [slice pointerName (0 + 1)
                            (0 + 1 + Z.to_nat (byteAt pointerName 0))]))
      (0 + 1 + Z.to_nat (byteAt pointerName 0)).
Proof.
  apply (pointer_byte_is_label_length pointerName 0 [] 0).
  - apply path_here.
  - vm_compute. lia.
  - vm_compute. discriminate.
  - vm_compute. lia.
Defined.

(** C2, as the specification states it, fails: in [unterminated] the next
    length byte would be read at the end of the buffer, the null label is
    missing, and [decodeDnsName] returns the name read so far. *)
Lemma unterminated_name_returns :
  labelPath unterminated 0 [[x6d; x6f; x65]] 4 /\
  length unterminated <= 4 /\
  decodeDnsName unterminated 0 = Normal ("moe.", 4).
Proof.
  split; [| split; [vm_compute; lia | vm_compute; reflexivity]].
  apply (path_label unterminated 0 [] 4);
    [vm_compute; lia | vm_compute; discriminate | vm_compute; lia |].
  apply path_here.
Qed.

(** C2, amended: [decodeDnsName] throws "Buffer too short for DnsName label"
    whenever the body that a length byte declares would run past the end of
    the buffer.  When the next length byte itself would be read at or past
    the end, the loop ends and the function returns the name read so far with
    [newOffset] the current offset; a missing null label is not an error. *)
Theorem truncation_in_name bytes offset labels cur :
  labelPath bytes offset labels cur ->
  (cur < length bytes ->
   byteAt bytes cur <> 0%Z ->
   length bytes < cur + 1 + Z.to_nat (byteAt bytes cur) ->
   decodeDnsName bytes offset = Throw tooShort) /\
  (length bytes <= cur ->
   decodeDnsName bytes offset = Normal (joinLabels labels, cur)).
Proof.
  intros Hpath. unfold decodeDnsName.
  rewrite (labelPath_loop _ _ _ _ Hpath), decodeDnsName_loop_eq.
  split; intros; decide_tests; reflexivity.
Qed.

Lemma truncation_in_name_witness :
  decodeDnsName cutLabel 0 = Throw tooShort /\
  decodeDnsName unterminated 0 = Normal ("moe.", 4).
Proof.
  split.
  - apply (truncation_in_name cutLabel 0 [] 0 (path_here _ _)).
    + vm_compute. lia.
    + vm_compute. discriminate.
    + vm_compute. lia.
  - apply (truncation_in_name unterminated 0 [[x6d; x6f; x65]] 4).
    + apply (path_label unterminated 0 [] 4);
        [vm_compute; lia | vm_compute; discriminate | vm_compute; lia |].
      apply path_here.
    + vm_compute. lia.
Defined.

(** C8, as the specification states it, fails: [longLabel] declares a label
    of 64 bytes and [decodeDnsName] returns it. *)
Lemma label_of_64_bytes_decodes :
  labelPath longLabel 0 [repeat x61 64] 65 /\
  decodeDnsName longLabel 0 = Normal (toAscii (repeat x61 64) ++ ".", 66).
Proof.
  split; [| vm_compute; reflexivity].
  apply (path_label longLabel 0 [] 65);
    [vm_compute; lia | vm_compute; discriminate | vm_compute; lia |].
  apply path_here.
Qed.

(** No test on the declared length: a label of any length from 1 to 255
    whose body and null label are in the buffer is returned. *)
Lemma any_label_length_accepted pre l body rest :
  l <> x00 ->
  length body = N.to_nat (Byte.to_N l) ->
  decodeDnsName (pre ++ l :: body ++ x00 :: rest) (length pre)
  = Normal (toAscii body ++ ".", length pre + length body + 2).
Proof.
  intros Hl Hlen.
  assert (Hb : byteAt (pre ++ l :: body ++ x00 :: rest) (length pre)
               = Z.of_N (Byte.to_N l)).
  { unfold byteAt. rewrite nth_middle. reflexivity. }
  assert (Hnz : Byte.to_N l <> 0%N).
  { intros H0. apply Hl.
    pose proof (Byte.of_to_N l) as Hof. rewrite H0 in Hof.
    simpl in Hof. congruence. }
  unfold decodeDnsName. rewrite decodeDnsName_loop_eq, Hb.
  replace (Z.to_nat (Z.of_N (Byte.to_N l))) with (length body) by lia.
  assert (Hlen0 : 0 < length body) by lia.
  rewrite !length_app; simpl length; rewrite !length_app; simpl length.
  decide_tests.
  replace (pre ++ l :: body ++ x00 :: rest)%list
    with ((pre ++ [l]) ++ body ++ x00 :: rest)%list
    by (rewrite <- app_assoc; reflexivity).
  replace (length pre + 1) with (length (pre ++ [l])%list)
    by (rewrite length_app; reflexivity).
  rewrite slice_middle.
  rewrite decodeDnsName_loop_eq.
  replace ((pre ++ [l]) ++ body ++ x00 :: rest)%list
    with (((pre ++ [l]) ++ body) ++ x00 :: rest)%list
    by (rewrite <- !app_assoc; reflexivity).
  replace (length (pre ++ [l])%list + length body)
    with (length ((pre ++ [l]) ++ body)%list)
    by (rewrite !length_app; reflexivity).
  rewrite byteAt_middle.
  rewrite !length_app; simpl length.
  decide_tests.
  simpl. do 2 f_equal. lia.
Qed.

(** C8, amended: every label of a name that [decodeDnsName] returns has
    from 1 to 255 bytes, what one length byte can declare.  The function has
    no test against the limit of 63: the labels are the bodies along the
    path it took through the buffer, whatever lengths were declared. *)
Theorem labels_at_most_255 bytes offset name newOffset :
  decodeDnsName bytes offset = Normal (name, newOffset) ->
  exists labels cur,
    labelPath bytes offset labels cur /\
    name = joinLabels labels /\
    Forall (fun l => 1 <= length l <= 255) labels /\
    (length bytes <= cur /\ newOffset = cur \/
     cur < length bytes /\ byteAt bytes cur = 0%Z /\ newOffset = cur + 1).
Proof.
  intros E. apply decodeDnsName_loop_labels in E.
  destruct E as (labels & cur & Hp & Hn & Hall & Hend).
  exists labels, cur. auto.
Qed.

Lemma labels_at_most_255_witness :
  exists labels cur,
    labelPath longLabel 0 labels cur /\
    toAscii (repeat x61 64) ++ "." = joinLabels labels /\
    Forall (fun l => 1 <= length l <= 255) labels /\
    (length longLabel <= cur /\ 66 = cur \/
     cur < length longLabel /\ byteAt longLabel cur = 0%Z /\ 66 = cur + 1).
Proof.
  apply (labels_at_most_255 longLabel 0).
  vm_compute. reflexivity.
Defined.

(** ** One pass of the decode loop *)

(** What a pass that pushes a record has read, field by field. *)
Lemma readFields_pushed rawBytes rr offset rr' offset' :
  readFields rawBytes rr offset = Pushed rr' offset' ->
  offset' = offset + 2 + 2 + 4 + 2
            + Z.to_nat (read16 rawBytes (offset + 2 + 2 + 4)) /\
  offset' <= length rawBytes /\
  rr_name rr' = rr_name rr /\
  rr_type rr' = Some (read16 rawBytes offset) /\
  rr_class rr' = Some (read16 rawBytes (offset + 2)) /\
  rr_ttl rr' = Some (read32 rawBytes (offset + 2 + 2)) /\
  exists rdata,
    rr_rdata rr' = Some rdata /\
    if andb (read16 rawBytes offset =? 2)%Z
            (read16 rawBytes (offset + 2) =? 1)%Z
    then exists newOffset,
        decodeDnsName (slice rawBytes (offset + 2 + 2 + 4 + 2) offset') 0
        = Normal (rdata, newOffset)
    else rdata = hexlify (slice rawBytes (offset + 2 + 2 + 4 + 2) offset').
Proof.
  unfold readFields.
  repeat (destruct (length rawBytes <? _); [discriminate |]).
  cbv zeta. unfold readRdata.
  pose proof (read16_range rawBytes (offset + 2 + 2 + 4)) as Hrd.
  destruct (Z.ltb_spec (Z.of_nat (length rawBytes))
              (Z.of_nat (offset + 2 + 2 + 4 + 2)
               + read16 rawBytes (offset + 2 + 2 + 4))) as [| Hfit];
    [discriminate |].
  replace (Z.to_nat (Z.of_nat (offset + 2 + 2 + 4 + 2)
                     + read16 rawBytes (offset + 2 + 2 + 4)))
    with (offset + 2 + 2 + 4 + 2
          + Z.to_nat (read16 rawBytes (offset + 2 + 2 + 4))) by lia.
  simpl rr_type. simpl rr_class.
  destruct (andb _ _).
  - destruct (decodeDnsName _ 0) as [[name newOffset] | m] eqn:E;
      [| discriminate].
    intros H. injection H as <- <-.
    cbn [rr_name rr_type rr_class rr_ttl rr_rdata
         set_rdata set_ttl set_class set_type].
    repeat split; try lia. exists name. split; [reflexivity |].
    exists newOffset. exact E.
  - intros H. injection H as <- <-.
    cbn [rr_name rr_type rr_class rr_ttl rr_rdata
         set_rdata set_ttl set_class set_type].
    repeat split; try lia. eexists. split; reflexivity.
Qed.

(** A truncated field makes the pass end in [break]. *)
Lemma readFields_truncated rawBytes rr offset :
  fieldTruncated rawBytes offset ->
  exists rr' offset', readFields rawBytes rr offset = Break rr' offset'.
Proof.
  unfold fieldTruncated, readFields. intros H.
  repeat match goal with
    | |- context [length rawBytes <? ?b] =>
        destruct (Nat.ltb_spec (length rawBytes) b);
        [eexists; eexists; reflexivity |]
    end.
  cbv zeta. unfold readRdata.
  destruct (Z.ltb_spec (Z.of_nat (length rawBytes))
              (Z.of_nat (offset + 2 + 2 + 4 + 2)
               + read16 rawBytes (offset + 2 + 2 + 4)));
    [eexists; eexists; reflexivity | lia].
Qed.

(** The NS record whose RDATA cannot be decoded: with every field in the
    buffer, type 2 and class 1, a throw of the Name Decoder on the RDATA
    takes the pass to the [catch] clause, behind the RDATA. *)
Lemma readFields_caught rawBytes rr offset message :
  ~ fieldTruncated rawBytes offset ->
  read16 rawBytes offset = 2%Z ->
  read16 rawBytes (offset + 2) = 1%Z ->
  decodeDnsName
    (slice rawBytes (offset + 2 + 2 + 4 + 2)
       (offset + 2 + 2 + 4 + 2
        + Z.to_nat (read16 rawBytes (offset + 2 + 2 + 4)))) 0
  = Throw message ->
  readFields rawBytes rr offset
  = Caught
      (set_ttl (read32 rawBytes (offset + 2 + 2))
         (set_class (read16 rawBytes (offset + 2))
            (set_type (read16 rawBytes offset) rr)))
      message
      (offset + 2 + 2 + 4 + 2
       + Z.to_nat (read16 rawBytes (offset + 2 + 2 + 4))).
Proof.
  unfold fieldTruncated, readFields. intros Hfit Hty Hcl Hthrow.
  repeat match goal with
    | |- context [length rawBytes <? ?b] =>
        destruct (Nat.ltb_spec (length rawBytes) b); [lia |]
    end.
  cbv zeta. unfold readRdata.
  pose proof (read16_range rawBytes (offset + 2 + 2 + 4)) as Hrd.
  destruct (Z.ltb_spec (Z.of_nat (length rawBytes))
              (Z.of_nat (offset + 2 + 2 + 4 + 2)
               + read16 rawBytes (offset + 2 + 2 + 4))); [lia |].
  replace (Z.to_nat (Z.of_nat (offset + 2 + 2 + 4 + 2)
                     + read16 rawBytes (offset + 2 + 2 + 4)))
    with (offset + 2 + 2 + 4 + 2
          + Z.to_nat (read16 rawBytes (offset + 2 + 2 + 4))) by lia.
  simpl rr_type. simpl rr_class. rewrite Hty, Hcl, Hthrow. reflexivity.
Qed.

(** The offset never moves back during a pass. *)
Lemma parsePass_offset rawBytes ownerNameFromEvent offset :
  offset <= endOffset (snd (parsePass rawBytes ownerNameFromEvent offset)).
Proof.
  unfold parsePass, decodeDnsName.
  destruct (decodeDnsName_loop rawBytes "" offset) as [[name newOffset] | m]
    eqn:E; simpl; [| lia].
  apply decodeDnsName_loop_offset in E.
  pose proof (readFields_offset rawBytes (set_name name emptyObject)
                newOffset).
  lia.
Qed.

(** A pass that pushes a record: the owner name it decoded and the fields it
    read behind it. *)
Lemma parsePass_pushed rawBytes ownerNameFromEvent offset w rr offset' :
  parsePass rawBytes ownerNameFromEvent offset = (w, Pushed rr offset') ->
  exists name newOffset,
    decodeDnsName rawBytes offset = Normal (name, newOffset) /\
    rr_name rr = Some name /\
    readFields rawBytes (set_name name emptyObject) newOffset
    = Pushed rr offset'.
Proof.
  unfold parsePass.
  destruct (decodeDnsName rawBytes offset) as [[name newOffset] | m] eqn:E;
    [| discriminate].
  intros H. injection H as _ H.
  exists name, newOffset. repeat split; [| exact H].
  apply readFields_pushed in H. destruct H as (_ & _ & Hn & _).
  rewrite Hn. reflexivity.
Qed.

(** ** Runs of the decode loop *)

Lemma loopReaches_loop rawBytes ownerNameFromEvent st st' :
  loopReaches rawBytes ownerNameFromEvent st st' ->
  parseDnsRrSet_loop rawBytes ownerNameFromEvent st
  = parseDnsRrSet_loop rawBytes ownerNameFromEvent st'.
Proof.
  induction 1 as [st | st st' st'' (Hin & w & rr & offset & Hpass & ->) _ IH];
    [reflexivity |].
  rewrite parseDnsRrSet_loop_eq, Hpass. decide_tests. exact IH.
Qed.

(** Every record of the final state was there at the start or was pushed by
    a pass that began inside the buffer. *)
Lemma loop_records rawBytes ownerNameFromEvent st rr :
  In rr (records (parseDnsRrSet_loop rawBytes ownerNameFromEvent st)) ->
  In rr (records st) \/
  exists offset w offset',
    offset < length rawBytes /\
    parsePass rawBytes ownerNameFromEvent offset = (w, Pushed rr offset').
Proof.
  funelim (parseDnsRrSet_loop rawBytes ownerNameFromEvent st);
    try rewrite <- Heqcall; simpl; auto.
  intros Hin.
  match goal with
  | IH : forall _, In _ _ -> _ |- _ => destruct (IH _ Hin) as [Hold | Hnew]
  end; [| right; exact Hnew].
  simpl in Hold. apply in_app_or in Hold. destruct Hold as [Hold | Hrr].
  - left. exact Hold.
  - right. destruct Hrr as [<- | []]. eauto.
Qed.

(** The loop leaves the offset at or after the one it was entered with. *)
Lemma loop_cursor rawBytes ownerNameFromEvent st :
  cursor st
  <= cursor (parseDnsRrSet_loop rawBytes ownerNameFromEvent st).
Proof.
  funelim (parseDnsRrSet_loop rawBytes ownerNameFromEvent st);
    try rewrite <- Heqcall; simpl; try lia;
    match goal with
    | H : parsePass ?r ?h ?o = _ |- _ =>
        pose proof (parsePass_offset r h o) as Hle; rewrite H in Hle;
        simpl in *; lia
    end.
Qed.

(** The run of the whole function is the run of the loop from any state the
    loop reaches. *)
Lemma run_from_reached rawBytes eventOwnerName ownerNameFromEvent off st :
  decodeDnsName eventOwnerName 0 = Normal (ownerNameFromEvent, off) ->
  loopReaches rawBytes ownerNameFromEvent initial st ->
  parseDnsRrSet_run rawBytes eventOwnerName
  = Normal (parseDnsRrSet_loop rawBytes ownerNameFromEvent st).
Proof.
  intros Hhint Hreach. unfold parseDnsRrSet_run. rewrite Hhint.
  f_equal. apply (loopReaches_loop _ _ _ _ Hreach).
Qed.

(** The state in which the function is left by a pass that does not push. *)
Lemma run_failed_pass rawBytes eventOwnerName ownerNameFromEvent off st w e :
  decodeDnsName eventOwnerName 0 = Normal (ownerNameFromEvent, off) ->
  loopReaches rawBytes ownerNameFromEvent initial st ->
  cursor st < length rawBytes ->
  parsePass rawBytes ownerNameFromEvent (cursor st) = (w, e) ->
  failed e ->
  parseDnsRrSet_run rawBytes eventOwnerName
  = Normal (mkState (records st) (console st ++ w ++ report e)
              (endOffset e)).
Proof.
  intros Hhint Hreach Hin Hpass Hfail.
  rewrite (run_from_reached _ _ _ _ _ Hhint Hreach).
  rewrite parseDnsRrSet_loop_eq, Hpass.
  destruct (Nat.ltb_spec (cursor st) (length rawBytes)); [| lia].
  destruct e; simpl; [contradiction | rewrite app_nil_r |]; reflexivity.
Qed.

(** ** The RRSet Decoder *)

(** C3: scenario A decodes to the one record [recordA]: owner [moe.box.],
    type 2, class 1, ttl 14400, RDATA the name [derek.ns.cloudflare.com.],
    whatever owner name the event carries, as long as that name decodes. *)
Theorem scenarioA_one_record eventOwnerName ownerNameFromEvent off :
  decodeDnsName eventOwnerName 0 = Normal (ownerNameFromEvent, off) ->
  parseDnsRrSet scenarioA eventOwnerName = Normal [recordA].
Proof.
  intros Hhint. unfold parseDnsRrSet, parseDnsRrSet_run. rewrite Hhint.
  rewrite parseDnsRrSet_loop_eq. simpl cursor.
  change (0 <? length scenarioA) with true. cbv iota.
  unfold parsePass.
  replace (decodeDnsName scenarioA 0) with (Normal ("moe.box.", 9))
    by (vm_compute; reflexivity).
  replace (readFields scenarioA (set_name "moe.box." emptyObject) 9)
    with (Pushed recordA 44) by (vm_compute; reflexivity).
  rewrite parseDnsRrSet_loop_eq. simpl cursor.
  change (44 <? length scenarioA) with false. reflexivity.
Qed.

Lemma scenarioA_one_record_witness :
  parseDnsRrSet scenarioA moeBox = Normal [recordA].
Proof.
  apply (scenarioA_one_record moeBox "moe.box." 9).
  vm_compute. reflexivity.
Defined.

(** C4, as the specification states it, fails: on the empty buffer the pass
    is clean, on [cutLabel] the owner name throws, and the function returns
    the same value, the empty array, both times.  The error is on the
    console only. *)
Lemma error_not_in_returned_value :
  parseDnsRrSet_run [] moeBox = Normal (mkState [] [] 0) /\
  parseDnsRrSet_run cutLabel moeBox
  = Normal (mkState [] [Error tooShort 0] 0) /\
  parseDnsRrSet [] moeBox = parseDnsRrSet cutLabel moeBox.
Proof. repeat split; vm_compute; reflexivity. Qed.

(** C4, amended: what a pass that fails leaves behind, at any state the
    loop reaches inside the buffer.  When the Name Decoder throws on the
    owner name, the loop stops, [console.error] writes the message with the
    offset of the pass, and the offset stays there.  When it throws on the
    RDATA of a record of type 2 and class 1 all of whose fields are in the
    buffer, the loop stops and [console.error] writes the message with the
    offset behind the RDATA, after the warning about the owner name if there
    is one.  When a field or the RDATA is truncated the loop stops and
    nothing but that warning is written.  In all three cases the function
    returns exactly the records pushed before the pass: the returned array
    holds the records alone and does not tell a pass that ended in an error
    from one that did not. *)
Theorem failed_pass_outcome rawBytes eventOwnerName ownerNameFromEvent off
    st :
  decodeDnsName eventOwnerName 0 = Normal (ownerNameFromEvent, off) ->
  loopReaches rawBytes ownerNameFromEvent initial st ->
  cursor st < length rawBytes ->
  (forall message,
      decodeDnsName rawBytes (cursor st) = Throw message ->
      parseDnsRrSet_run rawBytes eventOwnerName
      = Normal (mkState (records st)
                  (console st ++ [Error message (cursor st)])
                  (cursor st)) /\
      parseDnsRrSet rawBytes eventOwnerName = Normal (records st)) /\
  (forall name fields message,
      decodeDnsName rawBytes (cursor st) = Normal (name, fields) ->
      ~ fieldTruncated rawBytes fields ->
      read16 rawBytes fields = 2%Z ->
      read16 rawBytes (fields + 2) = 1%Z ->
      let rdLength := Z.to_nat (read16 rawBytes (fields + 8)) in
      decodeDnsName
        (slice rawBytes (fields + 10) (fields + 10 + rdLength)) 0
      = Throw message ->
      parseDnsRrSet_run rawBytes eventOwnerName
      = Normal (mkState (records st)
                  (console st
                   ++ (if String.eqb name ownerNameFromEvent
                       then []
                       else [Warn name ownerNameFromEvent])
                   ++ [Error message (fields + 10 + rdLength)])
                  (fields + 10 + rdLength)) /\
      parseDnsRrSet rawBytes eventOwnerName = Normal (records st)) /\
  (forall name fields,
      decodeDnsName rawBytes (cursor st) = Normal (name, fields) ->
      fieldTruncated rawBytes fields ->
      (exists offset,
          parseDnsRrSet_run rawBytes eventOwnerName
          = Normal (mkState (records st)
                      (console st
                       ++ (if String.eqb name ownerNameFromEvent
                           then []
                           else [Warn name ownerNameFromEvent]))
                      offset)) /\
      parseDnsRrSet rawBytes eventOwnerName = Normal (records st)).
Proof.
  intros Hhint Hreach Hin.
  assert (Hrun : forall w e,
             parsePass rawBytes ownerNameFromEvent (cursor st) = (w, e) ->
             failed e ->
             parseDnsRrSet_run rawBytes eventOwnerName
             = Normal (mkState (records st) (console st ++ w ++ report e)
                         (endOffset e)) /\
             parseDnsRrSet rawBytes eventOwnerName = Normal (records st)).
  { intros w e Hpass Hfail.
    pose proof (run_failed_pass _ _ _ _ _ _ _ Hhint Hreach Hin Hpass Hfail)
      as Hrun.
    unfold parseDnsRrSet. rewrite Hrun. split; reflexivity. }
  split; [| split].
  - intros message Hthrow.
    apply (Hrun [] (Caught emptyObject message (cursor st)));
      [| exact I].
    unfold parsePass. rewrite Hthrow. reflexivity.
  - intros name fields message Hname Hfit Hty Hcl rdLength Hthrow.
    subst rdLength. revert Hthrow.
    replace (fields + 8) with (fields + 2 + 2 + 4) by lia.
    replace (fields + 10) with (fields + 2 + 2 + 4 + 2) by lia.
    intros Hthrow.
    pose proof (readFields_caught rawBytes (set_name name emptyObject)
                  fields message Hfit Hty Hcl Hthrow) as Hcaught.
    match type of Hcaught with
    | _ = ?e =>
        apply (Hrun (if String.eqb name ownerNameFromEvent
                     then []
                     else [Warn name ownerNameFromEvent]) e); [| exact I]
    end.
    unfold parsePass. rewrite Hname, Hcaught. reflexivity.
  - intros name fields Hname Htrunc.
    destruct (readFields_truncated rawBytes (set_name name emptyObject)
                fields Htrunc) as (rr' & offset' & Hbreak).
    destruct (Hrun (if String.eqb name ownerNameFromEvent
                    then []
                    else [Warn name ownerNameFromEvent])
                (Break rr' offset')) as [Hr Hp]; [| exact I |].
    + unfold parsePass. rewrite Hname, Hbreak. reflexivity.
    + split; [| exact Hp].
      exists offset'. rewrite Hr. simpl. rewrite app_nil_r. reflexivity.
Qed.

Lemma failed_pass_outcome_witness :
  (parseDnsRrSet_run (scenarioA ++ cutLabel) moeBox
   = Normal (mkState [recordA] ([] ++ [Error tooShort 44]) 44) /\
   parseDnsRrSet (scenarioA ++ cutLabel) moeBox = Normal [recordA]) /\
  (parseDnsRrSet_run (scenarioA ++ cutRdata) moeBox
   = Normal (mkState [recordA] ([] ++ [] ++ [Error tooShort 64]) 64) /\
   parseDnsRrSet (scenarioA ++ cutRdata) moeBox = Normal [recordA]) /\
  ((exists offset,
       parseDnsRrSet_run cutAfterA moeBox
       = Normal (mkState [recordA] ([] ++ []) offset)) /\
   parseDnsRrSet cutAfterA moeBox = Normal [recordA]).
Proof.
  assert (Hreach : forall post,
             parsePass (scenarioA ++ post) "moe.box." 0
             = ([], Pushed recordA 44) ->
             loopReaches (scenarioA ++ post) "moe.box." initial
               (mkState [recordA] [] 44)).
  { intros post Hpass.
    apply (reaches_next _ _ initial (mkState [recordA] [] 44));
      [| apply reaches_here].
    split; [rewrite length_app; vm_compute; lia |].
    exists [], recordA, 44. split; [exact Hpass | reflexivity]. }
  split; [| split].
  - apply (proj1 (failed_pass_outcome (scenarioA ++ cutLabel) moeBox
                    "moe.box." 9 (mkState [recordA] [] 44)
                    ltac:(vm_compute; reflexivity)
                    (Hreach cutLabel ltac:(vm_compute; reflexivity))
                    ltac:(vm_compute; lia)) tooShort).
    vm_compute. reflexivity.
  - apply (proj1 (proj2 (failed_pass_outcome (scenarioA ++ cutRdata) moeBox
                           "moe.box." 9 (mkState [recordA] [] 44)
                           ltac:(vm_compute; reflexivity)
                           (Hreach cutRdata ltac:(vm_compute; reflexivity))
                           ltac:(vm_compute; lia)))
             "moe.box." 53 tooShort).
    + vm_compute. reflexivity.
    + unfold fieldTruncated.
      intros [H | [H | [H | [H | H]]]]; vm_compute in H;
        try lia; discriminate.
    + vm_compute. reflexivity.
    + vm_compute. reflexivity.
    + vm_compute. reflexivity.
  - apply (proj2 (proj2 (failed_pass_outcome cutAfterA moeBox
                           "moe.box." 9 (mkState [recordA] [] 44)
                           ltac:(vm_compute; reflexivity)
                           (Hreach (moeBox ++ [x00])%list
                              ltac:(vm_compute; reflexivity))
                           ltac:(vm_compute; lia)))
             "moe.box." 53).
    + vm_compute. reflexivity.
    + left. vm_compute. lia.
Defined.

(** C5: once the owner name of a record has been decoded, a type, class,
    TTL or RDATA length that does not fit in the buffer, or an RDATA shorter
    than declared, ends the loop, and the function returns exactly the
    records of the earlier passes: the object of the record being read is not
    among them.  The empty buffer gives the empty array. *)
Theorem truncated_record_dropped eventOwnerName ownerNameFromEvent off :
  decodeDnsName eventOwnerName 0 = Normal (ownerNameFromEvent, off) ->
  (forall rawBytes st name newOffset,
      loopReaches rawBytes ownerNameFromEvent initial st ->
      cursor st < length rawBytes ->
      decodeDnsName rawBytes (cursor st) = Normal (name, newOffset) ->
      fieldTruncated rawBytes newOffset ->
      parseDnsRrSet rawBytes eventOwnerName = Normal (records st)) /\
  parseDnsRrSet [] eventOwnerName = Normal [].
Proof.
  intros Hhint. split.
  - intros rawBytes st name newOffset Hreach Hin Hname Htrunc.
    destruct (readFields_truncated rawBytes (set_name name emptyObject)
                newOffset Htrunc) as (rr' & offset' & Hbreak).
    assert (Hpass : parsePass rawBytes ownerNameFromEvent (cursor st)
                    = (if String.eqb name ownerNameFromEvent
                       then []
                       else [Warn name ownerNameFromEvent],
                       Break rr' offset')).
    { unfold parsePass. rewrite Hname, Hbreak. reflexivity. }
    unfold parseDnsRrSet.
    rewrite (run_failed_pass _ _ _ _ _ _ _ Hhint Hreach Hin Hpass I).
    reflexivity.
  - unfold parseDnsRrSet, parseDnsRrSet_run. rewrite Hhint.
    rewrite parseDnsRrSet_loop_eq. reflexivity.
Qed.

Lemma truncated_record_dropped_witness :
  parseDnsRrSet cutAfterA moeBox = Normal [recordA] /\
  parseDnsRrSet [] moeBox = Normal [].
Proof.
  destruct (truncated_record_dropped moeBox "moe.box." 9
              ltac:(vm_compute; reflexivity)) as [Hcut Hempty].
  split; [| exact Hempty].
  apply (Hcut cutAfterA (mkState [recordA] [] 44) "moe.box." 53).
  - apply (reaches_next _ _ initial (mkState [recordA] [] 44)).
    + split; [vm_compute; lia |].
      exists [], recordA, 44. split; vm_compute; reflexivity.
    + apply reaches_here.
  - vm_compute. lia.
  - vm_compute. reflexivity.
  - left. vm_compute. lia.
Defined.

(** The output of [hexlify] ends with ["x"] or a hexadecimal digit. *)
Lemma hexDigit_not_dot n : hexDigit n <> "."%char.
Proof.
  destruct n as [| p]; [discriminate |].
  do 4 (destruct p as [p | p |]; try discriminate).
Qed.

Lemma hexDigits_lastChar b c0 :
  c0 <> "."%char ->
  exists c, lastChar (String c0 (hexDigits b)) = Some c /\ c <> "."%char.
Proof.
  revert c0. induction b as [| x b IH]; intros c0 Hc0.
  - exists c0. split; [reflexivity | exact Hc0].
  - destruct (IH (hexDigit (Byte.to_N x mod 16)) (hexDigit_not_dot _))
      as (c & Hc & Hdot).
    exists c. split; [| exact Hdot].
    simpl hexDigits. exact Hc.
Qed.

(** So no decoded name is the output of [hexlify]. *)
Lemma decoded_name_not_hex bytes offset name newOffset b :
  decodeDnsName bytes offset = Normal (name, newOffset) ->
  name <> hexlify b.
Proof.
  intros E Heq. apply decodeDnsName_lastChar in E.
  destruct (hexDigits_lastChar b "x"%char ltac:(discriminate))
    as (c & Hc & Hdot).
  assert (Hlast : lastChar (hexlify b) = Some c) by exact Hc.
  rewrite <- Heq in Hlast.
  destruct E as [-> | E]; [discriminate | congruence].
Qed.

(** C6: in every record the function returns, with [fields] the offset
    behind its owner name and [rdataBytes] the [rdLength] bytes behind its
    fixed-width fields, the RDATA is the name that [decodeDnsName] returns
    for [rdataBytes] at offset 0 if and only if the type is 2 and the class
    is 1; in every other case it is [hexlify rdataBytes], the raw bytes. *)
Theorem rdata_by_type_and_class rawBytes eventOwnerName returned rr :
  parseDnsRrSet rawBytes eventOwnerName = Normal returned ->
  In rr returned ->
  exists fields rdata,
    rr_type rr = Some (read16 rawBytes fields) /\
    rr_class rr = Some (read16 rawBytes (fields + 2)) /\
    rr_rdata rr = Some rdata /\
    let rdLength := Z.to_nat (read16 rawBytes (fields + 8)) in
    let rdataBytes := slice rawBytes (fields + 10) (fields + 10 + rdLength) in
    fields + 10 + rdLength <= length rawBytes /\
    ((read16 rawBytes fields = 2 /\ read16 rawBytes (fields + 2) = 1)%Z
     <-> exists newOffset,
          decodeDnsName rdataBytes 0 = Normal (rdata, newOffset)) /\
    (~ (read16 rawBytes fields = 2 /\ read16 rawBytes (fields + 2) = 1)%Z
     -> rdata = hexlify rdataBytes).
Proof.
  unfold parseDnsRrSet, parseDnsRrSet_run.
  destruct (decodeDnsName eventOwnerName 0) as [[hint off] | m];
    [| discriminate].
  intros H Hin. injection H as <-.
  apply loop_records in Hin.
  destruct Hin as [[] | (offset & w & offset' & _ & Hpass)].
  apply parsePass_pushed in Hpass.
  destruct Hpass as (name & fields & _ & _ & Hfields).
  apply readFields_pushed in Hfields.
  destruct Hfields as (Hend & Hfit & _ & Hty & Hcl & _ & rdata & Hrd & Hcase).
  exists fields, rdata.
  replace (fields + 8) with (fields + 2 + 2 + 4) by lia.
  replace (fields + 10) with (fields + 2 + 2 + 4 + 2) by lia.
  cbv zeta. rewrite <- Hend.
  assert (Hdec :
            (read16 rawBytes fields = 2 /\ read16 rawBytes (fields + 2) = 1)%Z
            \/ ~ (read16 rawBytes fields = 2
                  /\ read16 rawBytes (fields + 2) = 1)%Z) by lia.
  split; [exact Hty |]. split; [exact Hcl |]. split; [exact Hrd |].
  split; [exact Hfit |].
  destruct Hdec as [[H2 H1] | Hnot].
  - rewrite H2, H1 in Hcase. simpl in Hcase.
    split; [split; auto | intros Hnot; exfalso; auto].
  - assert (Hhex : rdata
                   = hexlify (slice rawBytes (fields + 2 + 2 + 4 + 2)
                                offset')).
    { destruct (Z.eqb_spec (read16 rawBytes fields) 2);
        destruct (Z.eqb_spec (read16 rawBytes (fields + 2)) 1);
        simpl in Hcase; auto; exfalso; auto. }
    split; [split | intros _; exact Hhex].
    + intros Hboth. exfalso. exact (Hnot Hboth).
    + intros [newOffset Hname]. exfalso.
      apply (decoded_name_not_hex _ _ _ _ _ Hname Hhex).
Qed.

Lemma rdata_by_type_and_class_witness :
  exists fields rdata,
    rr_type recordA = Some (read16 scenarioA fields) /\
    rr_class recordA = Some (read16 scenarioA (fields + 2)) /\
    rr_rdata recordA = Some rdata /\
    let rdLength := Z.to_nat (read16 scenarioA (fields + 8)) in
    let rdataBytes :=
      slice scenarioA (fields + 10) (fields + 10 + rdLength) in
    fields + 10 + rdLength <= length scenarioA /\
    ((read16 scenarioA fields = 2 /\ read16 scenarioA (fields + 2) = 1)%Z
     <-> exists newOffset,
          decodeDnsName rdataBytes 0 = Normal (rdata, newOffset)) /\
    (~ (read16 scenarioA fields = 2 /\ read16 scenarioA (fields + 2) = 1)%Z
     -> rdata = hexlify rdataBytes).
Proof.
  apply (rdata_by_type_and_class scenarioA moeBox [recordA] recordA).
  - vm_compute. reflexivity.
  - left. reflexivity.
Defined.

(** The TTL read is the unsigned value when the first byte is below [0x80],
    and that value less [2^32] otherwise. *)
Lemma read32_signed rawBytes offset :
  read32 rawBytes offset
  = ((byteAt rawBytes offset * 16777216
      + byteAt rawBytes (offset + 1) * 65536
      + byteAt rawBytes (offset + 2) * 256
      + byteAt rawBytes (offset + 3))
     - (if byteAt rawBytes offset <? 128 then 0 else 4294967296))%Z.
Proof.
  rewrite read32_value.
  pose proof (byteAt_range rawBytes offset).
  pose proof (byteAt_range rawBytes (offset + 1)).
  pose proof (byteAt_range rawBytes (offset + 2)).
  pose proof (byteAt_range rawBytes (offset + 3)).
  unfold Js.toInt32.
  destruct (Z.ltb_spec (byteAt rawBytes offset) 128).
  - rewrite Z.mod_small; lia.
  - match goal with
    | |- ((?v + 2147483648) mod 4294967296 - 2147483648 = _)%Z =>
        replace (v + 2147483648)%Z
          with ((v - 2147483648) + 1 * 4294967296)%Z by lia
    end.
    rewrite Z.mod_add by lia. rewrite Z.mod_small; lia.
Qed.

(** C7: what the function returns for [highTtl], a record whose TTL bytes
    are [80 00 00 00].  The type and the class are the unsigned 16-bit
    values 1 and 1; the TTL comes out as -2147483648, where the unsigned
    32-bit big-endian value of the four bytes is 2147483648. *)
Theorem high_ttl_is_negative :
  parseDnsRrSet highTtl moeBox
  = Normal [mkRr (Some "moe.box.") (Some 1%Z) (Some 1%Z)
              (Some (-2147483648)%Z) (Some "0xac420046")].
Proof. vm_compute. reflexivity. Qed.

(** The loop function ends in the state of the last pass: a state the loop
    reaches and from which no pass goes on. *)
Lemma loop_last_pass rawBytes ownerNameFromEvent st :
  exists st',
    loopReaches rawBytes ownerNameFromEvent st st' /\
    (forall st'', ~ loopStep rawBytes ownerNameFromEvent st' st'') /\
    records (parseDnsRrSet_loop rawBytes ownerNameFromEvent st)
    = records st'.
Proof.
  funelim (parseDnsRrSet_loop rawBytes ownerNameFromEvent st);
    try rewrite <- Heqcall.
  - exists st. split; [apply reaches_here | split; [| reflexivity]].
    intros st'' (Hin & _). lia.
  - match goal with
    | IH : exists _, _ |- _ => destruct IH as (st' & Hreach & Hlast & Hrec)
    end.
    exists st'. split; [| split; assumption].
    eapply reaches_next; [| exact Hreach].
    split; [assumption |]. eauto.
  - exists st. split; [apply reaches_here | split; [| reflexivity]].
    intros st'' (_ & w' & rr' & o' & Hpass & _). congruence.
  - exists st. split; [apply reaches_here | split; [| reflexivity]].
    intros st'' (_ & w' & rr' & o' & Hpass & _). congruence.
Qed.

(** C9: the decode loop of [parseDnsRrSet] cannot go on for ever: no
    infinite chain of passes exists.  A pass that lets the loop go on has
    moved the offset forward, by 11 bytes or more and not past the end of
    the buffer; every other pass leaves the loop.  The offset never
    decreases, within a pass or over the loop.  The function
    [parseDnsRrSet_loop] ends in the state of the last pass.  The loop of
    the [dns-packet] test script, which goes on only after a record of
    non-zero encoding length, cannot go on for ever either. *)
Theorem decode_loop_terminates rawBytes ownerNameFromEvent :
  well_founded
    (fun st' st => loopStep rawBytes ownerNameFromEvent st st') /\
  (forall st st',
      loopStep rawBytes ownerNameFromEvent st st' ->
      cursor st + 11 <= cursor st' <= length rawBytes) /\
  (forall offset,
      offset
      <= endOffset (snd (parsePass rawBytes ownerNameFromEvent offset))) /\
  (forall st,
      cursor st
      <= cursor (parseDnsRrSet_loop rawBytes ownerNameFromEvent st)) /\
  (forall st,
      exists st',
        loopReaches rawBytes ownerNameFromEvent st st' /\
        (forall st'', ~ loopStep rawBytes ownerNameFromEvent st' st'') /\
        records (parseDnsRrSet_loop rawBytes ownerNameFromEvent st)
        = records st') /\
  (forall (Answer : Type)
          (decode : list byte -> nat -> completion (option Answer))
          (encodingLength : Answer -> nat),
      well_founded
        (fun st' st =>
           testStep Answer decode encodingLength rawBytes st st')).
Proof.
  assert (Hstep : forall st st',
             loopStep rawBytes ownerNameFromEvent st st' ->
             cursor st + 11 <= cursor st' <= length rawBytes).
  { intros st st' (Hin & w & rr & offset & Hpass & ->). simpl.
    apply parsePass_pushed in Hpass.
    destruct Hpass as (name & newOffset & Hname & _ & Hfields).
    apply decodeDnsName_loop_offset in Hname. destruct Hname as [_ Hlt].
    apply readFields_pushed in Hfields. destruct Hfields as (Hend & Hfit & _).
    specialize (Hlt Hin). lia. }
  split; [| split; [exact Hstep | split; [| split; [| split]]]].
  - apply (well_founded_lt_compat _
             (fun st => length rawBytes - cursor st)).
    intros st' st H. apply Hstep in H. lia.
  - apply parsePass_offset.
  - apply loop_cursor.
  - apply loop_last_pass.
  - intros Answer decode encodingLength.
    apply (well_founded_lt_compat _
             (fun st => length rawBytes - testOffset Answer st)).
    intros st' st (Hin & rr & _ & Hnz & ->). simpl. lia.
Qed.



(** ** Reads in a longer buffer *)

Lemma byteAt_shift (pre bytes : list byte) i :
  byteAt (pre ++ bytes) (length pre + i) = byteAt bytes i.
Proof. unfold byteAt. rewrite app_nth2_plus. reflexivity. Qed.

Lemma slice_shift (pre bytes : list byte) start stop :
  slice (pre ++ bytes) (length pre + start) (length pre + stop)
  = slice bytes start stop.
Proof.
  unfold slice. rewrite skipn_app, skipn_all2 by lia. simpl.
  replace (length pre + start - length pre) with start by lia.
  replace (length pre + stop - (length pre + start)) with (stop - start)
    by lia.
  reflexivity.
Qed.

Lemma byteAt_prefix (bytes post : list byte) i :
  i < length bytes -> byteAt (bytes ++ post) i = byteAt bytes i.
Proof. intros H. unfold byteAt. rewrite app_nth1 by exact H. reflexivity. Qed.

Lemma slice_prefix (bytes post : list byte) start stop :
  stop <= length bytes ->
  slice (bytes ++ post) start stop = slice bytes start stop.
Proof.
  intros H. unfold slice. rewrite skipn_app, firstn_app, length_skipn.
  replace (stop - start - (length bytes - start)) with 0 by lia.
  simpl. apply app_nil_r.
Qed.

Lemma lengthByte_value n :
  n <= 255 -> Z.of_N (Byte.to_N (lengthByte n)) = Z.of_nat n.
Proof.
  intros H. unfold lengthByte.
  destruct (Byte.of_N (N.of_nat n)) as [b |] eqn:E.
  - apply Byte.to_of_N in E. rewrite E. lia.
  - apply Byte.of_N_None_iff in E. lia.
Qed.

Lemma string_length_app (a b : string) :
  String.length (a ++ b) = String.length a + String.length b.
Proof. induction a as [| c a IH]; simpl; [| rewrite IH]; reflexivity. Qed.

Lemma toAscii_length b : String.length (toAscii b) = length b.
Proof. induction b as [| c b IH]; simpl; [| rewrite IH]; reflexivity. Qed.

Lemma chars_app (a b : string) : chars (a ++ b) = (chars a ++ chars b)%list.
Proof. induction a as [| c a IH]; simpl; [| rewrite IH]; reflexivity. Qed.

(** ** The name loop in a longer buffer *)

(** Bytes in front of the buffer move the offsets and nothing else. *)
Lemma decodeDnsName_loop_shift pre bytes name currentOffset :
  decodeDnsName_loop (pre ++ bytes) name (length pre + currentOffset)
  = shifted (length pre) (decodeDnsName_loop bytes name currentOffset).
Proof.
  funelim (decodeDnsName_loop bytes name currentOffset);
    try rewrite <- Heqcall;
    rewrite decodeDnsName_loop_eq, byteAt_shift, length_app;
    decide_tests; simpl; try reflexivity.
  - f_equal. f_equal. lia.
  - match goal with
    | IH : forall _, _ = _ |- _ => rewrite <- IH
    end.
    replace (length pre + currentOffset + 1)
      with (length pre + (currentOffset + 1)) by lia.
    replace (length pre + (currentOffset + 1)
             + Z.to_nat (byteAt bytes currentOffset))
      with (length pre
            + (currentOffset + 1 + Z.to_nat (byteAt bytes currentOffset)))
      by lia.
    rewrite slice_shift. reflexivity.
Qed.

(** A decode that ended before the end of the buffer goes the same way when
    bytes are added behind the buffer. *)
Lemma decodeDnsName_loop_extend bytes post name currentOffset name' newOffset :
  decodeDnsName_loop bytes name currentOffset = Normal (name', newOffset) ->
  newOffset < length bytes ->
  decodeDnsName_loop (bytes ++ post) name currentOffset
  = Normal (name', newOffset).
Proof.
  funelim (decodeDnsName_loop bytes name currentOffset);
    try rewrite <- Heqcall; intros E Hlt; try discriminate.
  - injection E as <- <-. lia.
  - injection E as <- <-.
    rewrite decodeDnsName_loop_eq, byteAt_prefix, length_app by assumption.
    decide_tests. reflexivity.
  - rewrite decodeDnsName_loop_eq, byteAt_prefix, length_app by assumption.
    decide_tests. rewrite slice_prefix by assumption.
    match goal with
    | IH : forall _ _ _, _ -> _ -> _ |- _ => apply IH; assumption
    end.
Qed.

(** The end of a decode that returns lies inside the buffer when its start
    does. *)
Lemma decodeDnsName_loop_end bytes name currentOffset name' newOffset :
  decodeDnsName_loop bytes name currentOffset = Normal (name', newOffset) ->
  currentOffset <= length bytes -> newOffset <= length bytes.
Proof.
  funelim (decodeDnsName_loop bytes name currentOffset);
    try rewrite <- Heqcall; intros E Hle; try discriminate.
  - injection E as <- <-. lia.
  - injection E as <- <-. lia.
  - match goal with
    | IH : forall _ _, _ -> _ -> _ |- _ => apply (IH _ _ E)
    end.
    assumption.
Qed.

(** Where a path of labels ends, and how many characters it renders. *)
Lemma labelPath_length bytes offset labels cur :
  labelPath bytes offset labels cur ->
  offset + String.length (joinLabels labels) = cur.
Proof.
  induction 1 as [offset | offset labels cur Hin Hnz Hfit Hpath IH]; simpl.
  - lia.
  - rewrite string_length_app, toAscii_length, slice_length by lia.
    simpl. lia.
Qed.

(** A decode that throws met a label cut by the end of the buffer. *)
Lemma decodeDnsName_loop_throws bytes name currentOffset message :
  decodeDnsName_loop bytes name currentOffset = Throw message ->
  message = tooShort /\
  exists labels cur,
    labelPath bytes currentOffset labels cur /\
    cur < length bytes /\
    byteAt bytes cur <> 0%Z /\
    length bytes < cur + 1 + Z.to_nat (byteAt bytes cur).
Proof.
  funelim (decodeDnsName_loop bytes name currentOffset);
    try rewrite <- Heqcall; intros E; try discriminate.
  - match goal with
    | IH : forall _, _ -> _ /\ _ |- _ =>
        destruct (IH _ E) as (Hm & labels & cur & Hp & Hc & Hb & Hcut)
    end.
    split; [exact Hm |].
    exists (slice bytes (currentOffset + 1)
              (currentOffset + 1 + Z.to_nat (byteAt bytes currentOffset))
            :: labels), cur.
    split; [apply path_label; assumption |]. auto.
  - injection E as <-. split; [reflexivity |].
    exists [], currentOffset.
    split; [apply path_here |]. repeat split; try assumption. lia.
Qed.

(** The name loop on the wire form of a name. *)
Lemma decodeDnsName_loop_wireName labels :
  Forall wireLabel labels ->
  forall pre rest name,
    decodeDnsName_loop (pre ++ wireName labels ++ rest) name (length pre)
    = Normal (name ++ joinLabels labels,
              length pre + length (wireName labels)).
Proof.
  induction 1 as [| l labels Hl Hall IH]; intros pre rest name.
  - simpl. rewrite decodeDnsName_loop_eq, byteAt_middle, length_app.
    simpl. decide_tests. rewrite string_app_empty_r. reflexivity.
  - unfold wireLabel in Hl. simpl wireName.
    rewrite decodeDnsName_loop_eq.
    change ((lengthByte (length l) :: l ++ wireName labels) ++ rest)%list
      with (lengthByte (length l) :: (l ++ wireName labels) ++ rest)%list.
    rewrite byteAt_middle, lengthByte_value by lia.
    rewrite Nat2Z.id.
    rewrite !length_app. simpl length. rewrite !length_app.
    decide_tests.
    replace (pre ++ lengthByte (length l)
             :: (l ++ wireName labels) ++ rest)%list
      with ((pre ++ [lengthByte (length l)])
            ++ l ++ wireName labels ++ rest)%list
      by (rewrite <- !app_assoc; reflexivity).
    replace (length pre + 1)
      with (length (pre ++ [lengthByte (length l)])%list)
      by (rewrite length_app; reflexivity).
    rewrite slice_middle.
    replace ((pre ++ [lengthByte (length l)])
             ++ l ++ wireName labels ++ rest)%list
      with (((pre ++ [lengthByte (length l)]) ++ l)
            ++ wireName labels ++ rest)%list
      by (rewrite <- !app_assoc; reflexivity).
    replace (length (pre ++ [lengthByte (length l)])%list + length l)
      with (length ((pre ++ [lengthByte (length l)]) ++ l)%list)
      by (rewrite !length_app; reflexivity).
    rewrite IH. simpl joinLabels.
    rewrite !string_app_assoc. f_equal. f_equal.
    rewrite !length_app. simpl. lia.
Qed.

Lemma asciiChar_7bit b : nat_of_ascii (asciiChar b) < 128.
Proof.
  unfold asciiChar, nat_of_ascii.
  assert (H : (N.land (Byte.to_N b) 127 < 128)%N).
  { change 127%N with (N.ones 7). rewrite N.land_ones.
    apply N.mod_lt. discriminate. }
  rewrite N_ascii_embedding by lia. lia.
Qed.

Lemma joinLabels_7bit labels :
  Forall (fun c => nat_of_ascii c < 128) (chars (joinLabels labels)).
Proof.
  induction labels as [| l labels IH]; simpl; [constructor |].
  rewrite chars_app. apply Forall_app. split.
  - induction l as [| b l IHl]; simpl; constructor;
      [apply asciiChar_7bit | exact IHl].
  - constructor; [vm_compute; lia | exact IH].
Qed.

(** ** The Name Decoder on any buffer *)

(** X1: [decodeDnsName] decodes every uncompressed wire-format name.  For
    labels of 1 to 255 bytes each, laid out behind their length bytes and
    closed by the null label, decoding at the start of the layout returns the
    labels joined with a dot behind each, and the offset just behind the null
    label, whatever bytes stand before and behind the name in the buffer. *)
Theorem decode_wire_name pre labels rest :
  Forall wireLabel labels ->
  decodeDnsName (pre ++ wireName labels ++ rest) (length pre)
  = Normal (joinLabels labels, length pre + length (wireName labels)).
Proof.
  intros Hall. unfold decodeDnsName.
  rewrite (decodeDnsName_loop_wireName labels Hall pre rest "").
  reflexivity.
Qed.

Lemma decode_wire_name_witness :
  decodeDnsName
    ([x2a] ++ wireName [[x6d; x6f; x65]; [x62; x6f; x78]] ++ [x00; x02])
    (length [x2a])
  = Normal (joinLabels [[x6d; x6f; x65]; [x62; x6f; x78]],
            length [x2a]
            + length (wireName [[x6d; x6f; x65]; [x62; x6f; x78]])).
Proof.
  apply (decode_wire_name [x2a] [[x6d; x6f; x65]; [x62; x6f; x78]]
           [x00; x02]).
  repeat constructor; simpl; lia.
Defined.

(** X2: [decodeDnsName] never looks at the bytes in front of the offset it
    is given.  Decoding at [offset] in [bytes], and decoding at the same
    place in a buffer that has [pre] in front of [bytes], return the same
    name with [newOffset] moved by the length of [pre], or throw the same
    error. *)
Theorem decode_ignores_bytes_before pre bytes offset :
  decodeDnsName (pre ++ bytes) (length pre + offset)
  = shifted (length pre) (decodeDnsName bytes offset).
Proof. apply decodeDnsName_loop_shift. Qed.

(** X3: the offset [decodeDnsName] returns.  Started inside the buffer, it
    returns an offset strictly behind the start and not behind the end of
    the buffer.  Started at or behind the end, it reads nothing: it returns
    the empty name and the offset it was given. *)
Theorem decode_offset_bounds bytes offset :
  (forall name newOffset,
      offset < length bytes ->
      decodeDnsName bytes offset = Normal (name, newOffset) ->
      offset < newOffset <= length bytes) /\
  (length bytes <= offset -> decodeDnsName bytes offset = Normal ("", offset)).
Proof.
  split.
  - intros name newOffset Hin E. unfold decodeDnsName in E. split.
    + apply decodeDnsName_loop_offset in E. apply E. exact Hin.
    + apply (decodeDnsName_loop_end _ _ _ _ _ E). lia.
  - intros Hout. unfold decodeDnsName. rewrite decodeDnsName_loop_eq.
    decide_tests. reflexivity.
Qed.

Lemma decode_offset_bounds_witness :
  0 < 9 <= length moeBox /\
  decodeDnsName moeBox 9 = Normal ("", 9).
Proof.
  split.
  - apply (proj1 (decode_offset_bounds moeBox 0) "moe.box." 9).
    + vm_compute. lia.
    + vm_compute. reflexivity.
  - apply (proj2 (decode_offset_bounds moeBox 9)). vm_compute. lia.
Defined.

(** X4: the only failure of [decodeDnsName].  It throws exactly when, after
    the labels it has read, it meets a non-zero length byte that declares
    more bytes than the buffer has left; the message is then "Buffer too
    short for DnsName label".  No other input makes it throw and it has no
    other message. *)
Theorem decode_throws_iff bytes offset message :
  decodeDnsName bytes offset = Throw message <->
  message = tooShort /\
  exists labels cur,
    labelPath bytes offset labels cur /\
    cur < length bytes /\
    byteAt bytes cur <> 0%Z /\
    length bytes < cur + 1 + Z.to_nat (byteAt bytes cur).
Proof.
  split.
  - apply decodeDnsName_loop_throws.
  - intros (-> & labels & cur & Hpath & Hin & Hnz & Hcut).
    unfold decodeDnsName.
    rewrite (labelPath_loop _ _ _ _ Hpath), decodeDnsName_loop_eq.
    decide_tests; reflexivity.
Qed.

Lemma decode_throws_iff_witness :
  decodeDnsName cutLabel 0 = Throw tooShort.
Proof.
  apply (proj2 (decode_throws_iff cutLabel 0 tooShort)).
  split; [reflexivity |].
  exists [], 0. split; [apply path_here |].
  split; [vm_compute; lia |].
  split; [vm_compute; discriminate | vm_compute; lia].
Defined.

(** X5: the name [decodeDnsName] returns has one character for every byte
    it consumed, the null label apart.  Either the decode ran to the end of
    the buffer and the name is as long as the distance from [offset] to
    [newOffset], or it stopped behind a zero byte, the null label, and the
    name is one character shorter than that distance. *)
Theorem decoded_name_length bytes offset name newOffset :
  decodeDnsName bytes offset = Normal (name, newOffset) ->
  (length bytes <= newOffset /\ offset + String.length name = newOffset) \/
  (newOffset <= length bytes /\ byteAt bytes (newOffset - 1) = 0%Z /\
   offset + String.length name + 1 = newOffset).
Proof.
  intros E. apply decodeDnsName_loop_labels in E.
  destruct E as (labels & cur & Hpath & -> & _ & Hend).
  apply labelPath_length in Hpath. simpl.
  destruct Hend as [[Hout ->] | (Hin & Hzero & ->)].
  - left. lia.
  - right. replace (cur + 1 - 1) with cur by lia.
    split; [lia | split; [exact Hzero | lia]].
Qed.

Lemma decoded_name_length_witness :
  (length moeBox <= 9 /\ 0 + String.length "moe.box." = 9) \/
  (9 <= length moeBox /\ byteAt moeBox (9 - 1) = 0%Z /\
   0 + String.length "moe.box." + 1 = 9).
Proof.
  apply (decoded_name_length moeBox 0 "moe.box." 9).
  vm_compute. reflexivity.
Defined.

(** X6: a name returned by [decodeDnsName] holds 7-bit characters only.
    The label bytes go through [toString("ascii")], which clears the top bit
    of every byte; the dots are added by the function. *)
Theorem decoded_name_is_7bit bytes offset name newOffset :
  decodeDnsName bytes offset = Normal (name, newOffset) ->
  Forall (fun c => nat_of_ascii c < 128) (chars name).
Proof.
  intros E. apply decodeDnsName_loop_labels in E.
  destruct E as (labels & cur & _ & -> & _ & _). simpl.
  apply joinLabels_7bit.
Qed.

Lemma decoded_name_is_7bit_witness :
  Forall (fun c => nat_of_ascii c < 128) (chars "i.").
Proof.
  apply (decoded_name_is_7bit [x01; xe9; x00] 0 "i." 3).
  vm_compute. reflexivity.
Defined.

(** ** Passes in a longer buffer *)

Lemma ltb_shift p a b : (p + a <? p + b) = (a <? b).
Proof.
  destruct (Nat.ltb_spec a b); destruct (Nat.ltb_spec (p + a) (p + b));
    try reflexivity; lia.
Qed.

Lemma read16_shift pre bytes offset :
  read16 (pre ++ bytes) (length pre + offset) = read16 bytes offset.
Proof.
  unfold read16. rewrite <- !Nat.add_assoc, !byteAt_shift. reflexivity.
Qed.

Lemma read32_shift pre bytes offset :
  read32 (pre ++ bytes) (length pre + offset) = read32 bytes offset.
Proof.
  unfold read32. rewrite <- !Nat.add_assoc, !byteAt_shift. reflexivity.
Qed.

Lemma read16_prefix bytes post offset :
  offset + 1 < length bytes ->
  read16 (bytes ++ post) offset = read16 bytes offset.
Proof. intros H. unfold read16. rewrite !byteAt_prefix by lia. reflexivity. Qed.

Lemma read32_prefix bytes post offset :
  offset + 3 < length bytes ->
  read32 (bytes ++ post) offset = read32 bytes offset.
Proof. intros H. unfold read32. rewrite !byteAt_prefix by lia. reflexivity. Qed.

Lemma readRdata_shift pre rawBytes rr offset rdLength :
  (0 <= rdLength)%Z ->
  readRdata (pre ++ rawBytes) rr (length pre + offset) rdLength
  = shiftedPass (length pre) (readRdata rawBytes rr offset rdLength).
Proof.
  intros Hrd. unfold readRdata. rewrite length_app.
  replace (Z.to_nat (Z.of_nat (length pre + offset) + rdLength))
    with (length pre + Z.to_nat (Z.of_nat offset + rdLength)) by lia.
  rewrite slice_shift.
  destruct (Z.ltb_spec (Z.of_nat (length rawBytes))
              (Z.of_nat offset + rdLength));
    destruct (Z.ltb_spec (Z.of_nat (length pre + length rawBytes))
                (Z.of_nat (length pre + offset) + rdLength));
    try lia; [reflexivity |].
  destruct (andb _ _); [| reflexivity].
  destruct (decodeDnsName _ 0) as [[name newOffset] | message]; reflexivity.
Qed.

Lemma readFields_shift pre rawBytes rr offset :
  readFields (pre ++ rawBytes) rr (length pre + offset)
  = shiftedPass (length pre) (readFields rawBytes rr offset).
Proof.
  unfold readFields. cbv zeta.
  rewrite length_app, <- !Nat.add_assoc, !ltb_shift.
  rewrite !read16_shift, !read32_shift.
  repeat (destruct (length rawBytes <? _); [reflexivity |]).
  apply readRdata_shift. apply read16_range.
Qed.

Lemma parsePass_shift pre rawBytes ownerNameFromEvent offset :
  parsePass (pre ++ rawBytes) ownerNameFromEvent (length pre + offset)
  = (fst (parsePass rawBytes ownerNameFromEvent offset),
     shiftedPass (length pre)
       (snd (parsePass rawBytes ownerNameFromEvent offset))).
Proof.
  unfold parsePass, decodeDnsName. rewrite decodeDnsName_loop_shift.
  destruct (decodeDnsName_loop rawBytes "" offset)
    as [[name newOffset] | message]; simpl; [| reflexivity].
  rewrite readFields_shift. reflexivity.
Qed.

Lemma readFields_extend rawBytes post rr offset rr' offset' :
  readFields rawBytes rr offset = Pushed rr' offset' ->
  readFields (rawBytes ++ post) rr offset = Pushed rr' offset'.
Proof.
  unfold readFields. cbv zeta. rewrite length_app.
  repeat match goal with
    | |- context [length rawBytes <? ?b] =>
        destruct (Nat.ltb_spec (length rawBytes) b); [discriminate |]
    end.
  decide_tests.
  rewrite !read16_prefix, !read32_prefix by lia.
  pose proof (read16_range rawBytes (offset + 2 + 2 + 4)) as Hrd.
  unfold readRdata. rewrite length_app.
  destruct (Z.ltb_spec (Z.of_nat (length rawBytes))
              (Z.of_nat (offset + 2 + 2 + 4 + 2)
               + read16 rawBytes (offset + 2 + 2 + 4))); [discriminate |].
  destruct (Z.ltb_spec (Z.of_nat (length rawBytes + length post))
              (Z.of_nat (offset + 2 + 2 + 4 + 2)
               + read16 rawBytes (offset + 2 + 2 + 4))); [lia |].
  rewrite slice_prefix by lia.
  intros E. exact E.
Qed.

Lemma parsePass_extend rawBytes post ownerNameFromEvent offset w rr offset' :
  parsePass rawBytes ownerNameFromEvent offset = (w, Pushed rr offset') ->
  parsePass (rawBytes ++ post) ownerNameFromEvent offset
  = (w, Pushed rr offset').
Proof.
  unfold parsePass, decodeDnsName.
  destruct (decodeDnsName_loop rawBytes "" offset)
    as [[name newOffset] | message] eqn:E; [| discriminate].
  intros H. injection H as Hw Hf.
  pose proof (readFields_pushed _ _ _ _ _ Hf) as (Hend & Hfit & _).
  rewrite (decodeDnsName_loop_extend _ post _ _ _ _ E) by lia.
  rewrite (readFields_extend _ post _ _ _ _ Hf), Hw. reflexivity.
Qed.

Lemma loopReaches_extend rawBytes post ownerNameFromEvent st st' :
  loopReaches rawBytes ownerNameFromEvent st st' ->
  loopReaches (rawBytes ++ post) ownerNameFromEvent st st'.
Proof.
  induction 1 as [st | st st' st'' (Hin & w & rr & offset & Hpass & ->) _ IH];
    [apply reaches_here |].
  eapply reaches_next; [| exact IH].
  split; [rewrite length_app; lia |].
  exists w, rr, offset. split; [| reflexivity].
  apply parsePass_extend. exact Hpass.
Qed.

(** The decode loop behind [pre], entered with the records [r] already
    pushed, returns [r] followed by what it returns on the buffer without
    [pre]. *)
Lemma loop_shift rawBytes ownerNameFromEvent st :
  forall pre r c,
    records
      (parseDnsRrSet_loop (pre ++ rawBytes) ownerNameFromEvent
         (mkState (r ++ records st) c (length pre + cursor st)))
    = (r ++ records (parseDnsRrSet_loop rawBytes ownerNameFromEvent st))%list.
Proof.
  funelim (parseDnsRrSet_loop rawBytes ownerNameFromEvent st);
    try rewrite <- Heqcall; intros pre r c;
    rewrite (parseDnsRrSet_loop_eq (pre ++ rawBytes));
    simpl cursor; rewrite length_app, ltb_shift; decide_tests;
    try reflexivity;
    rewrite parsePass_shift;
    match goal with
    | H : parsePass _ _ _ = _ |- _ => rewrite H
    end; simpl; try reflexivity.
  rewrite <- app_assoc.
  match goal with
  | IH : forall _ _ _, _ = _ |- _ => apply (IH pre r (c ++ w)%list)
  end.
Qed.

(** ** What the passes of a run leave behind *)

Lemma parsePass_hint rawBytes hint1 hint2 offset :
  snd (parsePass rawBytes hint1 offset) = snd (parsePass rawBytes hint2 offset).
Proof.
  unfold parsePass.
  destruct (decodeDnsName rawBytes offset) as [[name newOffset] | message];
    reflexivity.
Qed.

Lemma loop_hint rawBytes hint1 st :
  forall hint2 st2,
    records st2 = records st -> cursor st2 = cursor st ->
    records (parseDnsRrSet_loop rawBytes hint2 st2)
    = records (parseDnsRrSet_loop rawBytes hint1 st).
Proof.
  funelim (parseDnsRrSet_loop rawBytes hint1 st);
    try rewrite <- Heqcall; intros hint2 st2 Hr Hc;
    rewrite (parseDnsRrSet_loop_eq rawBytes hint2 st2), Hc; decide_tests;
    try assumption;
    match goal with
    | H : parsePass ?raw ?h ?o = _ |- _ =>
        pose proof (parsePass_hint raw h hint2 o) as Hsnd; rewrite H in Hsnd;
        destruct (parsePass raw hint2 o) as [w2 e2]; simpl in Hsnd;
        subst e2
    end; simpl; try assumption.
  match goal with
  | IH : forall _ _, _ -> _ -> _ |- _ => apply IH
  end; simpl; congruence.
Qed.

(** What a pass writes before it ends are warnings about the name it
    decoded. *)
Lemma parsePass_warnings rawBytes ownerNameFromEvent offset w e :
  parsePass rawBytes ownerNameFromEvent offset = (w, e) ->
  w = [] \/
  exists name newOffset,
    decodeDnsName rawBytes offset = Normal (name, newOffset) /\
    name <> ownerNameFromEvent /\
    w = [Warn name ownerNameFromEvent].
Proof.
  unfold parsePass.
  destruct (decodeDnsName rawBytes offset) as [[name newOffset] | message];
    intros H; injection H as <- _; [| left; reflexivity].
  destruct (String.eqb_spec name ownerNameFromEvent) as [| Hne];
    [left; reflexivity | right].
  exists name, newOffset. auto.
Qed.

Lemma parsePass_named rawBytes ownerNameFromEvent offset w e name newOffset :
  parsePass rawBytes ownerNameFromEvent offset = (w, e) ->
  decodeDnsName rawBytes offset = Normal (name, newOffset) ->
  w = if String.eqb name ownerNameFromEvent
      then []
      else [Warn name ownerNameFromEvent].
Proof.
  unfold parsePass. intros H E. rewrite E in H. injection H as <- _.
  reflexivity.
Qed.

(** The error a pass catches is the one error of the Name Decoder. *)
Lemma parsePass_caught rawBytes ownerNameFromEvent offset w rr message offset' :
  parsePass rawBytes ownerNameFromEvent offset
  = (w, Caught rr message offset') ->
  message = tooShort.
Proof.
  unfold parsePass.
  destruct (decodeDnsName rawBytes offset) as [[name newOffset] | m] eqn:E.
  - intros H. injection H as _ H. revert H.
    unfold readFields. cbv zeta.
    repeat (destruct (length rawBytes <? _); [discriminate |]).
    unfold readRdata. destruct (_ <? _)%Z; [discriminate |].
    destruct (andb _ _); [| discriminate].
    destruct (decodeDnsName _ 0) as [[n o] | m] eqn:Erd; [discriminate |].
    intros H. injection H as _ <- _.
    apply decodeDnsName_loop_throws in Erd. apply Erd.
  - intros H. injection H as _ _ <- _.
    apply decodeDnsName_loop_throws in E. apply E.
Qed.

(** A pass that starts in the buffer ends in the buffer. *)
Lemma readFields_end rawBytes rr offset :
  offset <= length rawBytes ->
  endOffset (readFields rawBytes rr offset) <= length rawBytes.
Proof.
  intros Hin. unfold readFields. cbv zeta.
  repeat match goal with
    | |- context [length rawBytes <? ?b] =>
        destruct (Nat.ltb_spec (length rawBytes) b); [simpl; lia |]
    end.
  pose proof (read16_range rawBytes (offset + 2 + 2 + 4)) as Hrd.
  unfold readRdata.
  destruct (Z.ltb_spec (Z.of_nat (length rawBytes))
              (Z.of_nat (offset + 2 + 2 + 4 + 2)
               + read16 rawBytes (offset + 2 + 2 + 4))); [simpl; lia |].
  destruct (andb _ _);
    [destruct (decodeDnsName _ 0) as [[n o] | m] |]; simpl; lia.
Qed.

Lemma parsePass_end rawBytes ownerNameFromEvent offset :
  offset <= length rawBytes ->
  endOffset (snd (parsePass rawBytes ownerNameFromEvent offset))
  <= length rawBytes.
Proof.
  intros Hin. unfold parsePass, decodeDnsName.
  destruct (decodeDnsName_loop rawBytes "" offset)
    as [[name newOffset] | m] eqn:E; simpl; [| exact Hin].
  apply readFields_end. apply (decodeDnsName_loop_end _ _ _ _ _ E Hin).
Qed.

(** A pass that pushes a record has gone over 11 bytes or more. *)
Lemma parsePass_pushed_bytes rawBytes ownerNameFromEvent offset w rr offset' :
  offset < length rawBytes ->
  parsePass rawBytes ownerNameFromEvent offset = (w, Pushed rr offset') ->
  offset + 11 <= offset' <= length rawBytes.
Proof.
  intros Hin Hpass. apply parsePass_pushed in Hpass.
  destruct Hpass as (name & newOffset & Hname & _ & Hfields).
  apply decodeDnsName_loop_offset in Hname. destruct Hname as [_ Hlt].
  apply readFields_pushed in Hfields. destruct Hfields as (Hend & Hfit & _).
  specialize (Hlt Hin). lia.
Qed.

(** The records and the offset over the loop: 11 bytes or more for every
    record, and the loop is left inside the buffer. *)
Lemma loop_count rawBytes ownerNameFromEvent st :
  11 * length (records st) <= cursor st ->
  cursor st <= length rawBytes ->
  11 * length (records (parseDnsRrSet_loop rawBytes ownerNameFromEvent st))
  <= cursor (parseDnsRrSet_loop rawBytes ownerNameFromEvent st)
  <= length rawBytes.
Proof.
  funelim (parseDnsRrSet_loop rawBytes ownerNameFromEvent st);
    try rewrite <- Heqcall; intros Hcount Hin; cbn [records cursor].
  - lia.
  - match goal with
    | Hp : parsePass _ _ _ = _, Hlt : cursor st < _ |- _ =>
        pose proof (parsePass_pushed_bytes _ _ _ _ _ _ Hlt Hp) as Hstep
    end.
    match goal with
    | IH : _ -> _ -> _ <= _ <= _ |- _ => apply IH
    end; cbn [records cursor]; [rewrite length_app; simpl length; lia | lia].
  - match goal with
    | Hp : parsePass ?r ?h ?o = _ |- _ =>
        pose proof (parsePass_offset r h o) as Hlo;
        pose proof (parsePass_end r h o Hin) as Hhi;
        rewrite Hp in Hlo, Hhi; simpl in Hlo, Hhi
    end.
    lia.
  - match goal with
    | Hp : parsePass ?r ?h ?o = _ |- _ =>
        pose proof (parsePass_offset r h o) as Hlo;
        pose proof (parsePass_end r h o Hin) as Hhi;
        rewrite Hp in Hlo, Hhi; simpl in Hlo, Hhi
    end.
    lia.
Qed.

(** The console over the loop: the lines at the start, the warnings of the
    passes, and at most one error line, which comes last, carries the
    message of the Name Decoder and the offset the loop is left with. *)
Lemma loop_console rawBytes ownerNameFromEvent st :
  exists w,
    console (parseDnsRrSet_loop rawBytes ownerNameFromEvent st)
    = (console st ++ w)%list /\
    (forall name hint,
        In (Warn name hint) w ->
        hint = ownerNameFromEvent /\ name <> ownerNameFromEvent /\
        exists offset newOffset,
          offset < length rawBytes /\
          decodeDnsName rawBytes offset = Normal (name, newOffset)) /\
    (noError w \/
     exists w',
       noError w' /\
       w = (w' ++ [Error tooShort
                     (cursor (parseDnsRrSet_loop rawBytes
                                ownerNameFromEvent st))])%list).
Proof.
  assert (Hwarn : forall offset w e name hint,
             offset < length rawBytes ->
             parsePass rawBytes ownerNameFromEvent offset = (w, e) ->
             In (Warn name hint) w ->
             hint = ownerNameFromEvent /\ name <> ownerNameFromEvent /\
             exists offset newOffset,
               offset < length rawBytes /\
               decodeDnsName rawBytes offset = Normal (name, newOffset)).
  { intros offset w e name hint Hin Hpass Hw.
    apply parsePass_warnings in Hpass.
    destruct Hpass as [-> | (n & o & Hdec & Hne & ->)]; [destruct Hw |].
    destruct Hw as [Hw | []]. injection Hw as <- <-.
    repeat split; [exact Hne |]. exists offset, o. auto. }
  assert (Hquiet : forall offset w e,
             parsePass rawBytes ownerNameFromEvent offset = (w, e) ->
             noError w).
  { intros offset w e Hpass message o Hw.
    apply parsePass_warnings in Hpass.
    destruct Hpass as [-> | (n & o' & _ & _ & ->)]; [destruct Hw |].
    destruct Hw as [Hw | []]. discriminate. }
  funelim (parseDnsRrSet_loop rawBytes ownerNameFromEvent st);
    try rewrite <- Heqcall; simpl.
  - exists []. rewrite app_nil_r. split; [reflexivity |].
    split; [intros ? ? [] | left; intros ? ? []].
  - match goal with
    | IH : _ -> _ -> exists _, _ |- _ =>
        destruct (IH Hwarn Hquiet) as (w1 & Hc & Hw1 & Hshape)
    end.
    simpl in Hc. exists (w ++ w1)%list.
    split; [rewrite Hc, app_assoc; reflexivity |].
    split.
    + intros name hint Hin. apply in_app_or in Hin.
      destruct Hin as [Hin | Hin]; [| apply Hw1; exact Hin].
      eapply Hwarn; eassumption.
    + destruct Hshape as [Hno | (w' & Hno & ->)].
      * left. intros message o Hin. apply in_app_or in Hin.
        destruct Hin as [Hin | Hin]; [| apply (Hno _ _ Hin)].
        eapply Hquiet; eassumption.
      * right. exists (w ++ w')%list. split; [| rewrite app_assoc; reflexivity].
        intros message o Hin. apply in_app_or in Hin.
        destruct Hin as [Hin | Hin]; [| apply (Hno _ _ Hin)].
        eapply Hquiet; eassumption.
  - exists w. split; [reflexivity |].
    split; [intros name hint Hin; eapply Hwarn; eassumption |].
    left. eapply Hquiet; eassumption.
  - exists (w ++ [Error message offset])%list. split; [reflexivity |].
    split.
    + intros name hint Hin. apply in_app_or in Hin.
      destruct Hin as [Hin | [Hin | []]]; [| discriminate].
      eapply Hwarn; eassumption.
    + right. exists w. split; [eapply Hquiet; eassumption |].
      match goal with
      | Hp : parsePass _ _ _ = _ |- _ =>
          rewrite (parsePass_caught _ _ _ _ _ _ _ Hp)
      end.
      reflexivity.
Qed.

(** A pushed record whose name is not the event's has its warning on the
    console. *)
Lemma loop_warned rawBytes ownerNameFromEvent st r name :
  In r (records (parseDnsRrSet_loop rawBytes ownerNameFromEvent st)) ->
  rr_name r = Some name ->
  name <> ownerNameFromEvent ->
  In r (records st) \/
  In (Warn name ownerNameFromEvent)
     (console (parseDnsRrSet_loop rawBytes ownerNameFromEvent st)).
Proof.
  funelim (parseDnsRrSet_loop rawBytes ownerNameFromEvent st);
    try rewrite <- Heqcall; simpl; auto.
  intros Hin Hname Hne.
  match goal with
  | IH : forall _ _, In _ _ -> _ |- _ =>
      destruct (IH _ _ Hin Hname Hne) as [Hold | Hnew]
  end; [| right; exact Hnew].
  simpl in Hold. apply in_app_or in Hold.
  destruct Hold as [Hold | [<- | []]]; [left; exact Hold | right].
  destruct (loop_console rawBytes ownerNameFromEvent
              (mkState (records st ++ [rr]) (console st ++ w) offset))
    as (w1 & Hc & _).
  rewrite Hc. simpl. apply in_or_app. left. apply in_or_app. right.
  match goal with
  | Hp : parsePass _ _ _ = _ |- _ =>
      pose proof (parsePass_pushed _ _ _ _ _ _ Hp)
        as (n & o & Hdec & Hn & _);
      pose proof (parsePass_named _ _ _ _ _ _ _ Hp Hdec) as Hw
  end.
  rewrite Hname in Hn. injection Hn as <-. rewrite Hw.
  destruct (String.eqb_spec name ownerNameFromEvent); [contradiction |].
  left. reflexivity.
Qed.

(** ** The RRSet Decoder on any buffer *)

(** X7: the records [parseDnsRrSet] returns do not depend on the event owner
    name.  For two event names that both decode, the function returns the
    same array; the name is only compared with the owner names to write
    warnings. *)
Theorem records_ignore_event_name rawBytes event1 event2
    hint1 off1 hint2 off2 :
  decodeDnsName event1 0 = Normal (hint1, off1) ->
  decodeDnsName event2 0 = Normal (hint2, off2) ->
  parseDnsRrSet rawBytes event1 = parseDnsRrSet rawBytes event2.
Proof.
  intros H1 H2. unfold parseDnsRrSet, parseDnsRrSet_run. rewrite H1, H2.
  f_equal. apply loop_hint; reflexivity.
Qed.

Lemma records_ignore_event_name_witness :
  parseDnsRrSet scenarioA moeBox = parseDnsRrSet scenarioA [x00].
Proof.
  apply (records_ignore_event_name scenarioA moeBox [x00] "moe.box." 9 "" 1);
    vm_compute; reflexivity.
Defined.

(** X8: the warnings of [parseDnsRrSet].  Every [console.warn] line names
    the event owner name and an owner name decoded in the buffer that is not
    equal to it; and every returned record whose owner name is not the event
    owner name has its warning on the console. *)
Theorem warnings_for_differing_names rawBytes eventOwnerName
    ownerNameFromEvent off st :
  decodeDnsName eventOwnerName 0 = Normal (ownerNameFromEvent, off) ->
  parseDnsRrSet_run rawBytes eventOwnerName = Normal st ->
  (forall name hint,
      In (Warn name hint) (console st) ->
      hint = ownerNameFromEvent /\ name <> ownerNameFromEvent /\
      exists offset newOffset,
        offset < length rawBytes /\
        decodeDnsName rawBytes offset = Normal (name, newOffset)) /\
  (forall rr name,
      In rr (records st) ->
      rr_name rr = Some name ->
      name <> ownerNameFromEvent ->
      In (Warn name ownerNameFromEvent) (console st)).
Proof.
  intros Hhint. unfold parseDnsRrSet_run. rewrite Hhint.
  intros H. injection H as <-. split.
  - intros name hint Hin.
    destruct (loop_console rawBytes ownerNameFromEvent (mkState [] [] 0))
      as (w & Hc & Hw & _).
    rewrite Hc in Hin. simpl in Hin. apply (Hw _ _ Hin).
  - intros rr name Hin Hname Hne.
    destruct (loop_warned _ _ _ _ _ Hin Hname Hne) as [[] | Hwarn].
    exact Hwarn.
Qed.

Lemma warnings_for_differing_names_witness :
  In (Warn "moe.box." "")
     (console (mkState [recordA] [Warn "moe.box." ""] 44)).
Proof.
  apply (proj2 (warnings_for_differing_names scenarioA [x00] "" 1
                  (mkState [recordA] [Warn "moe.box." ""] 44)
                  ltac:(vm_compute; reflexivity)
                  ltac:(vm_compute; reflexivity))
           recordA "moe.box.").
  - left. reflexivity.
  - reflexivity.
  - discriminate.
Defined.

(** X9: the error line of [parseDnsRrSet].  The console the function leaves
    holds at most one [console.error] line.  When there is one it is the
    last line, its message is "Buffer too short for DnsName label", and its
    offset is the one the loop was left with. *)
Theorem error_line_comes_last rawBytes eventOwnerName st :
  parseDnsRrSet_run rawBytes eventOwnerName = Normal st ->
  noError (console st) \/
  exists warnings,
    noError warnings /\
    console st = (warnings ++ [Error tooShort (cursor st)])%list.
Proof.
  unfold parseDnsRrSet_run.
  destruct (decodeDnsName eventOwnerName 0) as [[hint off] | m];
    [| discriminate].
  intros H. injection H as <-.
  destruct (loop_console rawBytes hint (mkState [] [] 0))
    as (w & Hc & _ & Hshape).
  rewrite Hc. simpl. exact Hshape.
Qed.

Lemma error_line_comes_last_witness :
  noError (console (mkState [recordA] [Error tooShort 44] 44)) \/
  exists warnings,
    noError warnings /\
    console (mkState [recordA] [Error tooShort 44] 44)
    = (warnings
       ++ [Error tooShort (cursor (mkState [recordA] [Error tooShort 44] 44))])
      %list.
Proof.
  apply (error_line_comes_last (scenarioA ++ cutLabel) moeBox).
  vm_compute. reflexivity.
Defined.

(** X10: every record [parseDnsRrSet] returns took 11 bytes or more of the
    buffer, and the loop is left at an offset inside the buffer: eleven
    times the number of records is at most the final offset, which is at
    most the length of the buffer.  A buffer of fewer than 11 bytes gives no
    record. *)
Theorem records_take_11_bytes rawBytes eventOwnerName st :
  parseDnsRrSet_run rawBytes eventOwnerName = Normal st ->
  11 * length (records st) <= cursor st <= length rawBytes.
Proof.
  unfold parseDnsRrSet_run.
  destruct (decodeDnsName eventOwnerName 0) as [[hint off] | m];
    [| discriminate].
  intros H. injection H as <-.
  apply loop_count; simpl; lia.
Qed.

Lemma records_take_11_bytes_witness :
  11 * length (records (mkState [recordA] [] 44))
  <= cursor (mkState [recordA] [] 44) <= length scenarioA.
Proof.
  apply (records_take_11_bytes scenarioA moeBox).
  vm_compute. reflexivity.
Defined.

(** X11: the numbers in a returned record.  The type and the class are in
    the unsigned 16-bit range; the TTL is in the signed 32-bit range, the
    range of the results of [<<] and [|]. *)
Theorem returned_fields_in_range rawBytes eventOwnerName returned rr :
  parseDnsRrSet rawBytes eventOwnerName = Normal returned ->
  In rr returned ->
  exists t c ttl,
    rr_type rr = Some t /\ rr_class rr = Some c /\ rr_ttl rr = Some ttl /\
    (0 <= t < 65536)%Z /\ (0 <= c < 65536)%Z /\
    (-2147483648 <= ttl < 2147483648)%Z.
Proof.
  unfold parseDnsRrSet, parseDnsRrSet_run.
  destruct (decodeDnsName eventOwnerName 0) as [[hint off] | m];
    [| discriminate].
  intros H Hin. injection H as <-.
  apply loop_records in Hin.
  destruct Hin as [[] | (offset & w & offset' & _ & Hpass)].
  apply parsePass_pushed in Hpass.
  destruct Hpass as (name & fields & _ & _ & Hfields).
  apply readFields_pushed in Hfields.
  destruct Hfields as (_ & _ & _ & Hty & Hcl & Httl & _).
  exists (read16 rawBytes fields), (read16 rawBytes (fields + 2)),
    (read32 rawBytes (fields + 2 + 2)).
  repeat split; try assumption; try apply read16_range;
    rewrite read32_value; apply JsFacts.toInt32_range.
Qed.

Lemma returned_fields_in_range_witness :
  exists t c ttl,
    rr_type recordA = Some t /\ rr_class recordA = Some c /\
    rr_ttl recordA = Some ttl /\
    (0 <= t < 65536)%Z /\ (0 <= c < 65536)%Z /\
    (-2147483648 <= ttl < 2147483648)%Z.
Proof.
  apply (returned_fields_in_range scenarioA moeBox [recordA] recordA).
  - vm_compute. reflexivity.
  - left. reflexivity.
Defined.

(** X12: RRSets concatenate.  When the loop on the buffer [a] has pushed
    record after record up to the end of [a], decoding [a] followed by [b]
    returns the records of [a] followed by the records that decoding [b]
    alone returns. *)
Theorem rrsets_concatenate a b eventOwnerName ownerNameFromEvent off st
    returned :
  decodeDnsName eventOwnerName 0 = Normal (ownerNameFromEvent, off) ->
  loopReaches a ownerNameFromEvent initial st ->
  cursor st = length a ->
  parseDnsRrSet b eventOwnerName = Normal returned ->
  parseDnsRrSet (a ++ b) eventOwnerName
  = Normal (records st ++ returned)%list.
Proof.
  intros Hhint Hreach Hend. unfold parseDnsRrSet.
  rewrite (run_from_reached (a ++ b) _ _ _ _ Hhint
             (loopReaches_extend _ b _ _ _ Hreach)).
  unfold parseDnsRrSet_run. rewrite Hhint.
  intros H. injection H as <-. f_equal.
  pose proof (loop_shift b ownerNameFromEvent initial a (records st)
                (console st)) as Hshift.
  simpl in Hshift. rewrite app_nil_r, Nat.add_0_r, <- Hend in Hshift.
  destruct st as [r c o]. exact Hshift.
Qed.

Lemma rrsets_concatenate_witness :
  parseDnsRrSet (scenarioA ++ daphneRecord) moeBox
  = Normal (records (mkState [recordA] [] 44) ++ [recordB])%list.
Proof.
  apply (rrsets_concatenate scenarioA daphneRecord moeBox "moe.box." 9
           (mkState [recordA] [] 44) [recordB]).
  - vm_compute. reflexivity.
  - apply (reaches_next _ _ initial (mkState [recordA] [] 44)).
    + split; [vm_compute; lia |].
      exists [], recordA, 44. split; vm_compute; reflexivity.
    + apply reaches_here.
  - vm_compute. reflexivity.
  - vm_compute. reflexivity.
Defined.

(** ** Well-formed records *)

Lemma lengthBytes_value n rest :
  n < 256 * 256 -> read16 (lengthBytes n ++ rest) 0 = Z.of_nat n.
Proof.
  intros Hn. rewrite read16_value. unfold lengthBytes, byteAt.
  cbn [nth app Nat.add].
  assert (n / 256 < 256) by (apply Nat.Div0.div_lt_upper_bound; lia).
  assert (n mod 256 < 256) by (apply Nat.mod_upper_bound; lia).
  rewrite !lengthByte_value by lia.
  pose proof (Nat.div_mod_eq n 256). lia.
Qed.

(** The fixed-width fields of a well-formed record, read at their start. *)
Lemma readFields_wire fields rdata rest rr :
  length fields = 8 ->
  length rdata < 256 * 256 ->
  readFields (fields ++ lengthBytes (length rdata) ++ rdata ++ rest) rr 0
  = readRdata (fields ++ lengthBytes (length rdata) ++ rdata ++ rest)
      (set_ttl (read32 fields 4)
         (set_class (read16 fields 2) (set_type (read16 fields 0) rr)))
      10 (Z.of_nat (length rdata)).
Proof.
  intros Hf Hr. unfold readFields. cbv zeta.
  rewrite !length_app. simpl length. rewrite Hf. decide_tests.
  rewrite !read16_prefix, !read32_prefix by (rewrite Hf; simpl; lia).
  replace (0 + 2 + 2 + 4) with (length fields + 0) by (rewrite Hf; reflexivity).
  rewrite read16_shift, lengthBytes_value by exact Hr.
  rewrite Hf. reflexivity.
Qed.

Lemma readRdata_wire fields rdata rest rr :
  length fields = 8 ->
  readRdata (fields ++ lengthBytes (length rdata) ++ rdata ++ rest) rr
    10 (Z.of_nat (length rdata))
  = if andb (Z.eqb (match rr_type rr with Some t => t | None => 0%Z end) 2)
            (Z.eqb (match rr_class rr with Some c => c | None => 0%Z end) 1)
    then
      match decodeDnsName rdata 0 with
      | Throw message => Caught rr message (10 + length rdata)
      | Normal (name, _) => Pushed (set_rdata name rr) (10 + length rdata)
      end
    else Pushed (set_rdata (hexlify rdata) rr) (10 + length rdata).
Proof.
  intros Hf. unfold readRdata.
  assert (Hslice :
            slice (fields ++ lengthBytes (length rdata) ++ rdata ++ rest)
              10 (10 + length rdata) = rdata).
  { pose proof (slice_middle (fields ++ lengthBytes (length rdata))
                  rdata rest) as H.
    rewrite length_app, Hf, <- app_assoc in H. exact H. }
  rewrite !length_app. simpl length. rewrite Hf.
  match goal with
  | |- context [(?a <? ?b)%Z] => destruct (Z.ltb_spec a b); [lia |]
  end.
  replace (Z.to_nat (Z.of_nat 10 + Z.of_nat (length rdata)))
    with (10 + length rdata) by lia.
  rewrite Hslice. reflexivity.
Qed.

(** The pass over a well-formed record, whatever stands before and behind it
    in the buffer. *)
Lemma parsePass_wire pre r rest ownerNameFromEvent :
  wellFormed r ->
  snd (parsePass (pre ++ wireOf r ++ rest) ownerNameFromEvent (length pre))
  = Pushed (decodedOf r) (length pre + length (wireOf r)).
Proof.
  intros (Howner & Hf & Hr & Hns).
  replace (length pre) with (length pre + 0) at 1 by lia.
  rewrite parsePass_shift. cbn [snd].
  unfold wireOf. rewrite <- !app_assoc.
  unfold parsePass, decodeDnsName.
  pose proof (decodeDnsName_loop_wireName _ Howner []
                (w_fields r ++ lengthBytes (length (w_rdata r))
                 ++ w_rdata r ++ rest) "") as Hname.
  cbn [app length Nat.add append] in Hname. rewrite Hname. cbn [snd].
  replace (length (wireName (w_owner r)))
    with (length (wireName (w_owner r)) + 0) at 1 by lia.
  rewrite readFields_shift, readFields_wire, readRdata_wire by assumption.
  cbn [rr_type rr_class set_ttl set_class set_type set_name emptyObject].
  rewrite !read16_value, read32_value.
  unfold decodedOf.
  fold (bigEndian16 (w_fields r) 0). fold (bigEndian16 (w_fields r) 2).
  fold (bigEndian32 (w_fields r) 4). fold (isNs (w_fields r)).
  assert (Hlen : length pre
                 + (length (wireName (w_owner r))
                    + (10 + length (w_rdata r)))
                 = length pre
                   + length (wireName (w_owner r) ++ w_fields r
                             ++ lengthBytes (length (w_rdata r))
                             ++ w_rdata r)%list).
  { rewrite !length_app, Hf. cbn [lengthBytes length]. lia. }
  destruct (isNs (w_fields r)) eqn:E.
  - destruct (Hns eq_refl) as (Htarget & Hrd).
    pose proof (decodeDnsName_loop_wireName _ Htarget [] [] "") as Htgt.
    cbn [app length Nat.add append] in Htgt. rewrite app_nil_r in Htgt.
    unfold decodeDnsName. rewrite Hrd at 1. rewrite Htgt.
    cbn [shiftedPass set_rdata rr_name rr_type rr_class rr_ttl].
    rewrite Hlen. reflexivity.
  - cbn [shiftedPass set_rdata rr_name rr_type rr_class rr_ttl].
    rewrite Hlen. reflexivity.
Qed.

(** A well-formed record at the end of what the loop has consumed is one
    more turn of the loop. *)
Lemma loopStep_wire pre r rest ownerNameFromEvent recs lines :
  wellFormed r ->
  exists w,
    loopStep (pre ++ wireOf r ++ rest) ownerNameFromEvent
      (mkState recs lines (length pre))
      (mkState (recs ++ [decodedOf r]) (lines ++ w)
         (length pre + length (wireOf r))).
Proof.
  intros Hwf.
  pose proof (parsePass_wire pre r rest ownerNameFromEvent Hwf) as Hpass.
  destruct (parsePass (pre ++ wireOf r ++ rest) ownerNameFromEvent
              (length pre)) as [w e] eqn:E.
  simpl in Hpass. subst e.
  exists w. split.
  - simpl. rewrite !length_app.
    destruct Hwf as (_ & Hf & _). unfold wireOf. rewrite !length_app, Hf.
    lia.
  - exists w, (decodedOf r), (length pre + length (wireOf r)).
    split; [exact E | reflexivity].
Qed.

(** The loop over the buffer of a well-formed RRSet. *)
Lemma loopReaches_wire rs :
  Forall wellFormed rs ->
  forall pre ownerNameFromEvent recs lines,
  exists lines',
    loopReaches (pre ++ wireRrSet rs) ownerNameFromEvent
      (mkState recs lines (length pre))
      (mkState (recs ++ map decodedOf rs) lines'
         (length (pre ++ wireRrSet rs))).
Proof.
  induction 1 as [| r rs Hwf Hall IH];
    intros pre ownerNameFromEvent recs lines.
  - exists lines. simpl. rewrite !app_nil_r. apply reaches_here.
  - destruct (loopStep_wire pre r (wireRrSet rs) ownerNameFromEvent
                recs lines Hwf) as (w & Hstep).
    destruct (IH (pre ++ wireOf r)%list ownerNameFromEvent
                (recs ++ [decodedOf r])%list (lines ++ w)%list)
      as (lines' & Hreach).
    exists lines'. cbn [wireRrSet map].
    rewrite <- !app_assoc in Hreach. cbn [app] in Hreach.
    rewrite length_app in Hreach.
    eapply reaches_next; [exact Hstep | exact Hreach].
Qed.

(** X13: [parseDnsRrSet] decodes every well-formed RRSet.  For records
    laid out one behind the other, each as owner name, 8 bytes of type, class
    and TTL, the 2 bytes of the RDATA length and the RDATA, the function
    returns one record object per record, in order: the owner name with a
    dot behind each label, the type and the class as the unsigned big-endian
    values of their 2 bytes, the TTL as the big-endian value of its 4 bytes
    in the signed 32-bit range, and as RDATA the decoded name for an NS
    record in class IN and the hex string of the bytes for any other. *)
Theorem wire_rrset_round_trip rs eventOwnerName ownerNameFromEvent off :
  decodeDnsName eventOwnerName 0 = Normal (ownerNameFromEvent, off) ->
  Forall wellFormed rs ->
  parseDnsRrSet (wireRrSet rs) eventOwnerName = Normal (map decodedOf rs).
Proof.
  intros Hhint Hall.
  destruct (loopReaches_wire rs Hall [] ownerNameFromEvent [] [])
    as (lines' & Hreach).
  cbn [app length] in Hreach.
  unfold parseDnsRrSet.
  rewrite (run_from_reached _ _ _ _ _ Hhint Hreach).
  rewrite parseDnsRrSet_loop_eq. cbn [cursor].
  rewrite Nat.ltb_irrefl. reflexivity.
Qed.

Lemma wire_rrset_round_trip_witness :
  parseDnsRrSet
    (wireRrSet
       [mkWire [[x6d; x6f; x65]; [x62; x6f; x78]]
          [x00; x02; x00; x01; x00; x00; x38; x40]
          (wireName [[x6e; x73]; [x69; x6f]]) [[x6e; x73]; [x69; x6f]];
        mkWire [[x6d; x6f; x65]; [x62; x6f; x78]]
          [x00; x01; x00; x01; x00; x00; x0e; x10]
          [xac; x42; x00; x46] []])
    moeBox
  = Normal
      (map decodedOf
         [mkWire [[x6d; x6f; x65]; [x62; x6f; x78]]
            [x00; x02; x00; x01; x00; x00; x38; x40]
            (wireName [[x6e; x73]; [x69; x6f]]) [[x6e; x73]; [x69; x6f]];
          mkWire [[x6d; x6f; x65]; [x62; x6f; x78]]
            [x00; x01; x00; x01; x00; x00; x0e; x10]
            [xac; x42; x00; x46] []]).
Proof.
  apply (wire_rrset_round_trip _ moeBox "moe.box." 9).
  - vm_compute. reflexivity.
  - repeat apply Forall_cons; try apply Forall_nil;
      unfold wellFormed, wireLabel;
      cbn [w_owner w_fields w_rdata w_target];
      (split; [repeat constructor; simpl length; lia |]);
      (split; [reflexivity |]);
      (split; [simpl length; lia |]).
    + intros _. split; [repeat constructor; simpl length; lia | reflexivity].
    + vm_compute. discriminate.
Defined.
